(** * Consumer.ts: the receiving-side handle of one inbound media track

    A shallow embedding of [src/Consumer.ts].  The class is a small state
    machine (open and active, open and paused, closed) that drives a
    [MediaStreamTrack] and publishes its transitions on two event emitters.

    How the TypeScript is read:

    - a method is a computation in the monad [M]: it reads what the outside
      world does at this call ([Env]), threads the heap ([World]) and ends
      either normally or with a thrown [Error].  A [throw] keeps every write
      made before it, as in JavaScript;
    - every effect that leaves the object is appended to one chronological
      [trace]: calls on the track, deliveries to listeners, logger calls.
      A delivery records what a listener could read from the Consumer at
      that instant ([View]);
    - listeners and the track are external.  What they do is not fixed but
      supplied by [Env], one per call, so every theorem quantifies over all
      behaviours: any listener may throw, [removeEventListener] and [stop]
      may throw.  Listeners are taken not to call back into the Consumer
      and not to write the track's [enabled] flag (the Consumer owns it). *)

From Stdlib Require Import List Ascii String Bool Arith Lia.
Import ListNotations.
Local Open Scope string_scope.
Local Open Scope list_scope.

(** ** Values thrown and returned *)

Inductive Error : Type :=
| InvalidStateError (message : string)   (* ./errors *)
| ForeignError (tag : nat).              (* whatever a listener or the track throws *)

Inductive MediaKind : Type := audio | video.

Inductive ReadyState : Type := live | ended.

(** ** The track, as far as the Consumer touches it

    [enabled] is the flag written by [pause]/[resume]; [readyState] is
    what [stop()] turns to [ended]; [ended_listener] says whether the
    Consumer's [onTrackEnded] is currently registered for ['ended'].
    The record follows what the Consumer does to the track.  The
    track's own life is not followed: when the track ends by itself
    the platform fires ['ended'] (see [track_fires_ended]) and the
    [readyState] kept here stays what the Consumer's calls made it. *)
Record MediaStreamTrack : Type := mkTrack {
  kind : MediaKind;
  enabled : bool;
  readyState : ReadyState;
  ended_listener : bool
}.

(** Opaque collaborators. *)
Definition RTCRtpReceiver := nat.
Definition RtpParameters := nat.
Definition AppData := list (string * string).

(** ** The fields of the class *)
Record Consumer : Type := mkConsumer {
  _id : string;
  _localId : string;
  _producerId : string;
  _closed : bool;
  _rtpReceiver : option RTCRtpReceiver;
  _track : MediaStreamTrack;
  _rtpParameters : RtpParameters;
  _paused : bool;
  _appData : AppData
}.

(** ** Events: [ConsumerEvents] and [ConsumerObserverEvents]

    The two callbacks carried by ['@getstats'] are the [resolve] and
    [reject] of the promise created by that call; a promise is named by
    the number it was allocated under. *)
Inductive Callback : Type :=
| resolve_of (promise : nat)
| reject_of (promise : nat).

Inductive ConsumerEvents : Type :=
| transportclose
| trackended
| at_getstats (resolve reject : Callback)   (* '@getstats' *)
| at_close                                  (* '@close' *)
| at_pause                                  (* '@pause' *)
| at_resume.                                (* '@resume' *)

Inductive ConsumerObserverEvents : Type :=
| obs_close
| obs_pause
| obs_resume
| obs_trackended.

(** An event together with the emitter it is emitted on: [this] (the
    public channel, which also carries the '@' signals for the owning
    transport) or [this._observer]. *)
Inductive Event : Type :=
| on_this (e : ConsumerEvents)
| on_observer (e : ConsumerObserverEvents).

(** Which emitter method delivered an event. *)
Inductive Delivery : Type :=
| by_emit
| by_safeEmit.

(** What a listener can read through the getters while it runs. *)
Record View : Type := mkView {
  view_closed : bool;
  view_paused : bool;
  view_track : MediaStreamTrack
}.

Inductive LogLevel : Type := debug | error.

(** ** Effects visible outside the object, in the order they happen *)
Inductive Effect : Type :=
| Log (level : LogLevel) (message : string)
| Track_addEventListener
| Track_removeEventListener (thrown : option Error)
| Track_stop (thrown : option Error)
| Track_set_enabled (value : bool)
| Emitted (how : Delivery) (ev : Event) (seen : View) (thrown : option Error)
| Executor_threw (promise : nat) (reason : Error).

(** ** The heap and the environment *)
Record World : Type := mkWorld {
  self : Consumer;
  trace : list Effect;      (* oldest first *)
  promises : nat            (* promises allocated so far *)
}.

(** What the outside does during one call.  [listeners ev v] is [None]
    when every listener of [ev] returns (or there is none) and [Some e]
    when one of them throws [e]; it may depend on what it sees. *)
Record Env : Type := mkEnv {
  listeners : Event -> View -> option Error;
  removeEventListener_throws : option Error;
  stop_throws : option Error
}.

(** ** Computations *)
Inductive Result (A : Type) : Type :=
| Returned (a : A)
| Thrown (e : Error).
Arguments Returned {A} a.
Arguments Thrown {A} e.

Definition M (A : Type) : Type := Env -> World -> World * Result A.

Definition ret {A} (a : A) : M A := fun _ w => (w, Returned a).

Definition bind {A B} (m : M A) (k : A -> M B) : M B :=
  fun env w =>
    match m env w with
    | (w', Returned a) => k a env w'
    | (w', Thrown e) => (w', Thrown e)
    end.

Definition throw {A} (e : Error) : M A := fun _ w => (w, Thrown e).

(** [try { m } catch (error) { h error }] *)
Definition try_catch {A} (m : M A) (h : Error -> M A) : M A :=
  fun env w =>
    match m env w with
    | (w', Returned a) => (w', Returned a)
    | (w', Thrown e) => h e env w'
    end.

Declare Scope js_scope.
Delimit Scope js_scope with js.
Notation "x <- m ;; k" := (bind m (fun x => k))
  (at level 61, m at next level, right associativity) : js_scope.
Notation "m ;; k" := (bind m (fun _ => k))
  (at level 61, right associativity) : js_scope.
Local Open Scope js_scope.

Definition ask : M Env := fun env w => (w, Returned env).
Definition get : M Consumer := fun _ w => (w, Returned (self w)).
Definition put (c : Consumer) : M unit :=
  fun _ w => (mkWorld c (trace w) (promises w), Returned tt).
Definition tell (x : Effect) : M unit :=
  fun _ w => (mkWorld (self w) (trace w ++ [x]) (promises w), Returned tt).
Definition fresh_promise : M nat :=
  fun _ w => (mkWorld (self w) (trace w) (S (promises w)), Returned (promises w)).

(** Field writes. *)
Definition set_closed (b : bool) (c : Consumer) : Consumer :=
  mkConsumer (_id c) (_localId c) (_producerId c) b (_rtpReceiver c)
             (_track c) (_rtpParameters c) (_paused c) (_appData c).
Definition set_paused (b : bool) (c : Consumer) : Consumer :=
  mkConsumer (_id c) (_localId c) (_producerId c) (_closed c) (_rtpReceiver c)
             (_track c) (_rtpParameters c) b (_appData c).
Definition set_track (t : MediaStreamTrack) (c : Consumer) : Consumer :=
  mkConsumer (_id c) (_localId c) (_producerId c) (_closed c) (_rtpReceiver c)
             t (_rtpParameters c) (_paused c) (_appData c).
Definition set_appData (a : AppData) (c : Consumer) : Consumer :=
  mkConsumer (_id c) (_localId c) (_producerId c) (_closed c) (_rtpReceiver c)
             (_track c) (_rtpParameters c) (_paused c) a.

Definition view_of (c : Consumer) : View :=
  mkView (_closed c) (_paused c) (_track c).

(** ** Logger *)

(** The message of [onTrackEnded], which quotes the word with double
    quotes: the character 34 stands on both sides of [ended]. *)
Definition track_ended_message : string :=
  String.append "track "
    (String (ascii_of_nat 34)
       (String.append "ended" (String (ascii_of_nat 34) " event"))).

Module logger.
Definition debug (message : string) : M unit := tell (Log debug message).
Definition error (message : string) : M unit := tell (Log error message).
End logger.

(** Writes to the track. *)
Definition with_enabled (b : bool) (t : MediaStreamTrack) : MediaStreamTrack :=
  mkTrack (kind t) b (readyState t) (ended_listener t).
Definition with_readyState (r : ReadyState) (t : MediaStreamTrack) : MediaStreamTrack :=
  mkTrack (kind t) (enabled t) r (ended_listener t).
Definition with_ended_listener (b : bool) (t : MediaStreamTrack) : MediaStreamTrack :=
  mkTrack (kind t) (enabled t) (readyState t) b.

(** ** The track's capability surface

    The track is the platform's [MediaStreamTrack], not code of this
    repository.  The Consumer uses four things of it: the [enabled]
    flag, [addEventListener] and [removeEventListener] for ['ended'],
    and [stop()].  The two calls that [destroyTrack] guards with
    [try]/[catch] may throw, as [Env] decides; a call that throws has
    no effect on the track. *)
Module track.
(** [this._track.enabled = value] *)
Definition write_enabled (value : bool) : M unit :=
  c <- get ;;
  put (set_track (with_enabled value (_track c)) c) ;;
  tell (Track_set_enabled value).

(** [this._track.addEventListener('ended', this.onTrackEnded)] *)
Definition addEventListener : M unit :=
  c <- get ;;
  put (set_track (with_ended_listener true (_track c)) c) ;;
  tell Track_addEventListener.

(** [this._track.removeEventListener('ended', this.onTrackEnded)]:
    detaches the handler, unless the track fails, in which case
    nothing is detached. *)
Definition removeEventListener : M unit :=
  env <- ask ;;
  tell (Track_removeEventListener (removeEventListener_throws env)) ;;
  match removeEventListener_throws env with
  | Some e => throw e
  | None =>
      c <- get ;;
      put (set_track (with_ended_listener false (_track c)) c)
  end.

(** [this._track.stop()]: the track ends, unless the track fails. *)
Definition stop : M unit :=
  env <- ask ;;
  tell (Track_stop (stop_throws env)) ;;
  match stop_throws env with
  | Some e => throw e
  | None =>
      c <- get ;;
      put (set_track (with_readyState ended (_track c)) c)
  end.
End track.

(** ** EnhancedEventEmitter *)

(** Modelled from the spec: [EnhancedEventEmitter] (./EnhancedEventEmitter
    is not among the sources).  The spec takes it as a given capability:
    "emit to all listeners, emit to listeners while isolating emission
    failures".  [deliver] is what both methods share: the listeners of
    the event run, seeing the Consumer as it is now, and a listener's
    failure comes out of the delivery. *)
Definition deliver (how : Delivery) (ev : Event) : M unit :=
  env <- ask ;;
  c <- get ;;
  let outcome := listeners env ev (view_of c) in
  tell (Emitted how ev (view_of c) outcome) ;;
  match outcome with
  | Some e => throw e
  | None => ret tt
  end.

(** Modelled from the spec: [EnhancedEventEmitter.emit], "emit to all
    listeners"; a listener's failure reaches the emitting call. *)
Definition emit (ev : Event) : M unit := deliver by_emit ev.

(** Modelled from the spec: [EnhancedEventEmitter.safeEmit], "emit to
    listeners while isolating emission failures"; a listener's failure
    is absorbed. *)
Definition safeEmit (ev : Event) : M unit :=
  try_catch (deliver by_safeEmit ev) (fun _ => ret tt).

(** ** Promises

    The state of the promise that [getStats] hands back, at the moment
    the call returns.  [getStats] is an [async] method: a [throw] in its
    body makes that promise rejected on return; returning the inner
    [new Promise] leaves it pending, to be settled later through the
    inner promise's [resolve]/[reject]. *)
Inductive Promise : Type :=
| rejected (reason : Error)
| pending (inner : nat).

(** [new Promise((resolve, reject) => executor)]: the executor runs at
    once; were it to throw, the constructor would turn that into a
    rejection of the new promise instead of letting it out. *)
Definition new_Promise (executor : Callback -> Callback -> M unit) : M nat :=
  p <- fresh_promise ;;
  try_catch (executor (resolve_of p) (reject_of p))
            (fun e => tell (Executor_threw p e)) ;;
  ret p.

(** [async]: the body's [throw] becomes the rejection of the returned
    promise; the call itself never throws. *)
Definition async (body : M nat) : M Promise :=
  try_catch (p <- body ;; ret (pending p)) (fun e => ret (rejected e)).

(** ** The class *)
Module Consumer.

(** [private handleTrack()] *)
Definition handleTrack : M unit :=
  track.addEventListener.

(** [private destroyTrack()] *)
Definition destroyTrack : M unit :=
  try_catch
    (track.removeEventListener ;;
     track.stop)
    (fun _ => ret tt).

(** [private onTrackEnded()] *)
Definition onTrackEnded : M unit :=
  logger.debug track_ended_message ;;
  safeEmit (on_this trackended) ;;
  (* Emit observer event. *)
  safeEmit (on_observer obs_trackended).

(** [close()] *)
Definition close : M unit :=
  c <- get ;;
  if _closed c then ret tt
  else
    logger.debug "close()" ;;
    c <- get ;; put (set_closed true c) ;;
    destroyTrack ;;
    emit (on_this at_close) ;;
    (* Emit observer event. *)
    safeEmit (on_observer obs_close).

(** [transportClosed()] *)
Definition transportClosed : M unit :=
  c <- get ;;
  if _closed c then ret tt
  else
    logger.debug "transportClosed()" ;;
    c <- get ;; put (set_closed true c) ;;
    destroyTrack ;;
    safeEmit (on_this transportclose) ;;
    (* Emit observer event. *)
    safeEmit (on_observer obs_close).

(** [async getStats()] *)
Definition getStats : M Promise :=
  async
    (c <- get ;;
     if _closed c then throw (InvalidStateError "closed")
     else
       new_Promise (fun resolve reject =>
         safeEmit (on_this (at_getstats resolve reject)))).

(** [pause()] *)
Definition pause : M unit :=
  logger.debug "pause()" ;;
  c <- get ;;
  if _closed c then logger.error "pause() | Consumer closed"
  else if _paused c then logger.debug "pause() | Consumer is already paused"
  else
    c <- get ;; put (set_paused true c) ;;
    track.write_enabled false ;;
    emit (on_this at_pause) ;;
    (* Emit observer event. *)
    safeEmit (on_observer obs_pause).

(** [resume()] *)
Definition resume : M unit :=
  logger.debug "resume()" ;;
  c <- get ;;
  if _closed c then logger.error "resume() | Consumer closed"
  else if negb (_paused c) then logger.debug "resume() | Consumer is already resumed"
  else
    c <- get ;; put (set_paused false c) ;;
    track.write_enabled true ;;
    emit (on_this at_resume) ;;
    (* Emit observer event. *)
    safeEmit (on_observer obs_resume).

(** [set appData(appData)] *)
Definition write_appData (appData : AppData) : M unit :=
  c <- get ;; put (set_appData appData c).

(** The constructor's arguments. *)
Record Args : Type := mkArgs {
  arg_id : string;
  arg_localId : string;
  arg_producerId : string;
  arg_rtpReceiver : option RTCRtpReceiver;
  arg_track : MediaStreamTrack;
  arg_rtpParameters : RtpParameters;
  arg_appData : option AppData
}.

(** [constructor({ id, localId, producerId, rtpReceiver, track,
    rtpParameters, appData })], run on the fields as the class
    initialisers leave them ([_closed = false]). *)
Definition constructor (a : Args) : M unit :=
  logger.debug "constructor()" ;;
  put (mkConsumer (arg_id a) (arg_localId a) (arg_producerId a)
                  false
                  (arg_rtpReceiver a) (arg_track a) (arg_rtpParameters a)
                  (negb (enabled (arg_track a)))
                  (match arg_appData a with Some d => d | None => [] end)) ;;
  handleTrack.

(** The getters.  Each one reads a field and does nothing else. *)

(** [get id()] *)
Definition id : M string := c <- get ;; ret (_id c).

(** [get localId()] *)
Definition localId : M string := c <- get ;; ret (_localId c).

(** [get producerId()] *)
Definition producerId : M string := c <- get ;; ret (_producerId c).

(** [get closed()] *)
Definition closed : M bool := c <- get ;; ret (_closed c).

(** [get kind()]: [this._track.kind as MediaKind] *)
Definition kind : M MediaKind := c <- get ;; ret (kind (_track c)).

(** [get rtpReceiver()] *)
Definition rtpReceiver : M (option RTCRtpReceiver) :=
  c <- get ;; ret (_rtpReceiver c).

(** [get rtpParameters()] *)
Definition rtpParameters : M RtpParameters := c <- get ;; ret (_rtpParameters c).

(** [get paused()] *)
Definition paused : M bool := c <- get ;; ret (_paused c).

(** [get appData()] *)
Definition appData : M AppData := c <- get ;; ret (_appData c).

(** [get track()] *)
Definition track : M MediaStreamTrack := c <- get ;; ret (_track c).

End Consumer.

(** ** Driving the object from outside *)

(** The track fires ['ended'].  This is the platform's side of
    [addEventListener]/[removeEventListener]: an event target calls the
    listeners registered at that moment, so [onTrackEnded] runs if and
    only if it is still attached.  Only this dispatch is modelled; the
    [readyState] kept in the record is not advanced by it. *)
Definition track_fires_ended : M unit :=
  c <- get ;;
  if ended_listener (_track c) then Consumer.onTrackEnded else ret tt.

(** An environment in which nothing fails. *)
Definition quiet : Env := mkEnv (fun _ _ => None) None None.

(** [new Consumer(a)]: the constructor run on a fresh object and an
    empty trace. *)
Definition new_Consumer (a : Consumer.Args) : World :=
  fst (Consumer.constructor a quiet
         (mkWorld (mkConsumer "" "" "" false None (Consumer.arg_track a) 0 false [])
                  [] 0)).

(** What can happen to a Consumer after construction. *)
Inductive Call : Type :=
| call_close
| call_transportClosed
| call_getStats
| call_pause
| call_resume
| call_set_appData (appData : AppData)
| ended_fired.

Definition void (m : M unit) : M (option Promise) := m ;; ret None.

Definition perform (c : Call) : M (option Promise) :=
  match c with
  | call_close => void Consumer.close
  | call_transportClosed => void Consumer.transportClosed
  | call_getStats => p <- Consumer.getStats ;; ret (Some p)
  | call_pause => void Consumer.pause
  | call_resume => void Consumer.resume
  | call_set_appData d => void (Consumer.write_appData d)
  | ended_fired => void track_fires_ended
  end.

(** One call, in the environment it meets; the caller goes on whether
    the call returned or threw. *)
Definition after (ec : Env * Call) (w : World) : World :=
  fst (perform (snd ec) (fst ec) w).

(** The worlds after each call of a sequence, in order. *)
Fixpoint worlds (calls : list (Env * Call)) (w : World) : list World :=
  match calls with
  | [] => []
  | ec :: rest => after ec w :: worlds rest (after ec w)
  end.

(** The world after the whole sequence. *)
Definition run (calls : list (Env * Call)) (w : World) : World :=
  fold_left (fun w ec => after ec w) calls w.

(** ** The state machine the methods implement

    The definitions of this part say in closed form what each method
    does: [transition] what one call does to the fields, [effects] what
    it appends to the trace.  They are not taken on trust: [after_world]
    proves them equal to the code above, method by method. *)

(** The outcome of a call that ends with what a listener did. *)
Definition outcome (o : option Error) : Result unit :=
  match o with
  | Some e => Thrown e
  | None => Returned tt
  end.

(** The track after [destroyTrack]. *)
Definition destroyed (env : Env) (t : MediaStreamTrack) : MediaStreamTrack :=
  match removeEventListener_throws env with
  | Some _ => t
  | None =>
      match stop_throws env with
      | Some _ => with_ended_listener false t
      | None => with_readyState ended (with_ended_listener false t)
      end
  end.

(** The calls [destroyTrack] makes on the track. *)
Definition destroy_effects (env : Env) : list Effect :=
  Track_removeEventListener (removeEventListener_throws env)
  :: match removeEventListener_throws env with
     | Some _ => []
     | None => [Track_stop (stop_throws env)]
     end.

(** The fields after a terminating call on an open Consumer. *)
Definition terminated (env : Env) (c : Consumer) : Consumer :=
  set_track (destroyed env (_track c)) (set_closed true c).

(** The fields after a real transition to [paused = b]. *)
Definition switched (b : bool) (c : Consumer) : Consumer :=
  set_track (with_enabled (negb b) (_track c)) (set_paused b c).

(** A signal to the owner through [emit], then, if the owner's
    handler returned, the observer event through [safeEmit]. *)
Definition owner_then_observer (env : Env) (signal : ConsumerEvents)
    (observed : ConsumerObserverEvents) (c : Consumer) : list Effect :=
  Emitted by_emit (on_this signal) (view_of c)
    (listeners env (on_this signal) (view_of c))
  :: match listeners env (on_this signal) (view_of c) with
     | Some _ => []
     | None => [Emitted by_safeEmit (on_observer observed) (view_of c)
                  (listeners env (on_observer observed) (view_of c))]
     end.

(** The log lines of a [pause()] that has nothing to do. *)
Definition pause_already (c : Consumer) : list Effect :=
  [Log debug "pause()";
   if _closed c then Log error "pause() | Consumer closed"
   else Log debug "pause() | Consumer is already paused"].

(** The log lines of a [resume()] that has nothing to do. *)
Definition resume_already (c : Consumer) : list Effect :=
  [Log debug "resume()";
   if _closed c then Log error "resume() | Consumer closed"
   else Log debug "resume() | Consumer is already resumed"].

(** What [onTrackEnded] appends. *)
Definition trackended_effects (env : Env) (c : Consumer) : list Effect :=
  [Log debug track_ended_message;
   Emitted by_safeEmit (on_this trackended) (view_of c)
     (listeners env (on_this trackended) (view_of c));
   Emitted by_safeEmit (on_observer obs_trackended) (view_of c)
     (listeners env (on_observer obs_trackended) (view_of c))].

Definition terminating (c : Call) : bool :=
  match c with
  | call_close | call_transportClosed => true
  | _ => false
  end.

Definition transition (env : Env) (c : Call) (s : Consumer) : Consumer :=
  match c with
  | call_close | call_transportClosed =>
      if _closed s then s else terminated env s
  | call_getStats | ended_fired => s
  | call_pause =>
      if _closed s || _paused s then s else switched true s
  | call_resume =>
      if _closed s || negb (_paused s) then s else switched false s
  | call_set_appData d => set_appData d s
  end.

Definition effects (env : Env) (c : Call) (s : Consumer) (p : nat) : list Effect :=
  match c with
  | call_close =>
      if _closed s then []
      else Log debug "close()" :: destroy_effects env
             ++ owner_then_observer env at_close obs_close (terminated env s)
  | call_transportClosed =>
      if _closed s then []
      else Log debug "transportClosed()" :: destroy_effects env
             ++ [Emitted by_safeEmit (on_this transportclose)
                   (view_of (terminated env s))
                   (listeners env (on_this transportclose) (view_of (terminated env s)));
                 Emitted by_safeEmit (on_observer obs_close)
                   (view_of (terminated env s))
                   (listeners env (on_observer obs_close) (view_of (terminated env s)))]
  | call_getStats =>
      if _closed s then []
      else [Emitted by_safeEmit
              (on_this (at_getstats (resolve_of p) (reject_of p))) (view_of s)
              (listeners env (on_this (at_getstats (resolve_of p) (reject_of p)))
                 (view_of s))]
  | call_pause =>
      if _closed s || _paused s then pause_already s
      else Log debug "pause()" :: Track_set_enabled false
             :: owner_then_observer env at_pause obs_pause (switched true s)
  | call_resume =>
      if _closed s || negb (_paused s) then resume_already s
      else Log debug "resume()" :: Track_set_enabled true
             :: owner_then_observer env at_resume obs_resume (switched false s)
  | call_set_appData _ => []
  | ended_fired =>
      if ended_listener (_track s) then trackended_effects env s else []
  end.

(** ** Reading a trace *)

Definition is_emission (x : Effect) : bool :=
  match x with Emitted _ _ _ _ => true | _ => false end.

Definition emissions (t : list Effect) : list Effect := filter is_emission t.

Definition is_stop (x : Effect) : bool :=
  match x with Track_stop _ => true | _ => false end.

Definition is_detach (x : Effect) : bool :=
  match x with Track_removeEventListener _ => true | _ => false end.

Definition count (p : Effect -> bool) (t : list Effect) : nat :=
  List.length (filter p t).

Definition is_public_trackended (x : Effect) : bool :=
  match x with
  | Emitted _ (on_this trackended) _ _ => true
  | _ => false
  end.

Definition is_observer_trackended (x : Effect) : bool :=
  match x with
  | Emitted _ (on_observer obs_trackended) _ _ => true
  | _ => false
  end.

Definition is_set_enabled (x : Effect) : bool :=
  match x with Track_set_enabled _ => true | _ => false end.

(** The delivery each event gets in the source: [emit] for the three
    signals ['@close'], ['@pause'], ['@resume'], [safeEmit] for all the
    rest, ['@getstats'] included. *)
Definition delivery_in_source (ev : Event) : Delivery :=
  match ev with
  | on_this at_close | on_this at_pause | on_this at_resume => by_emit
  | _ => by_safeEmit
  end.

Definition delivered_as_in_source (x : Effect) : Prop :=
  match x with
  | Emitted how ev _ _ => how = delivery_in_source ev
  | _ => True
  end.


(** The flag and the track agree. *)
Definition in_sync (w : World) : Prop :=
  enabled (_track (self w)) = negb (_paused (self w)).

(** The track is detached once per life, at the moment of closing, and
    stopped no more often than it is detached. *)
Definition destroyed_once (w : World) : Prop :=
  count is_detach (trace w) = (if _closed (self w) then 1 else 0)
  /\ count is_stop (trace w) <= count is_detach (trace w).

(** ** Reading a trace, continued *)

(** Two events have the same name (the callbacks of ['@getstats'] are
    not compared). *)
Definition same_name (e1 e2 : Event) : bool :=
  match e1, e2 with
  | on_this transportclose, on_this transportclose
  | on_this trackended, on_this trackended
  | on_this (at_getstats _ _), on_this (at_getstats _ _)
  | on_this at_close, on_this at_close
  | on_this at_pause, on_this at_pause
  | on_this at_resume, on_this at_resume
  | on_observer obs_close, on_observer obs_close
  | on_observer obs_pause, on_observer obs_pause
  | on_observer obs_resume, on_observer obs_resume
  | on_observer obs_trackended, on_observer obs_trackended => true
  | _, _ => false
  end.

(** The effect is a delivery of the event named [ev]. *)
Definition emits (ev : Event) (x : Effect) : bool :=
  match x with
  | Emitted _ ev' _ _ => same_name ev ev'
  | _ => false
  end.

(** The effect is a delivery of [ev] during which no listener threw. *)
Definition emits_heard (ev : Event) (x : Effect) : bool :=
  match x with
  | Emitted _ ev' _ None => same_name ev ev'
  | _ => false
  end.

Definition is_log (x : Effect) : bool :=
  match x with Log _ _ => true | _ => false end.

(** The callback pairs handed out with ['@getstats'], oldest first. *)
Fixpoint requested (t : list Effect) : list (Callback * Callback) :=
  match t with
  | [] => []
  | Emitted _ (on_this (at_getstats r j)) _ _ :: rest => (r, j) :: requested rest
  | _ :: rest => requested rest
  end.

Definition b2n (b : bool) : nat := if b then 1 else 0.

(** What a listener of [ev] finds when it looks at the Consumer: a
    track whose [enabled] flag agrees with [paused], and, when the
    event announces the end, a Consumer that is already closed. *)
Definition view_expected (ev : Event) (v : View) : Prop :=
  enabled (view_track v) = negb (view_paused v)
  /\ match ev with
     | on_this at_close | on_this transportclose | on_observer obs_close =>
         view_closed v = true
     | _ => True
     end.

Definition saw_expected (x : Effect) : Prop :=
  match x with
  | Emitted _ ev v _ => view_expected ev v
  | _ => True
  end.

(** Two environments that differ at most in what the listeners of the
    [safeEmit]-delivered events do: same track behaviour, same
    behaviour of the owner's ['@close'], ['@pause'] and ['@resume']
    handlers. *)
Definition same_but_isolated (env1 env2 : Env) : Prop :=
  removeEventListener_throws env1 = removeEventListener_throws env2
  /\ stop_throws env1 = stop_throws env2
  /\ forall ev v, delivery_in_source ev = by_emit ->
                 listeners env1 ev v = listeners env2 ev v.

(** The fields a Consumer cannot change after construction. *)
Definition identity_of (c : Consumer) :=
  (_id c, _localId c, _producerId c, _rtpReceiver c, _rtpParameters c,
   kind (_track c)).

(** What one call hands back to its caller, in closed form; proved
    equal to the code in [perform_world]. *)
Definition result (env : Env) (c : Call) (s : Consumer) (p : nat)
  : Result (option Promise) :=
  let told (signal : ConsumerEvents) (s' : Consumer) :=
    match listeners env (on_this signal) (view_of s') with
    | Some e => Thrown e
    | None => Returned None
    end in
  match c with
  | call_close =>
      if _closed s then Returned None else told at_close (terminated env s)
  | call_pause =>
      if _closed s || _paused s then Returned None
      else told at_pause (switched true s)
  | call_resume =>
      if _closed s || negb (_paused s) then Returned None
      else told at_resume (switched false s)
  | call_getStats =>
      Returned (Some (if _closed s then rejected (InvalidStateError "closed")
                      else pending p))
  | call_transportClosed | call_set_appData _ | ended_fired => Returned None
  end.

(** How the signals in a trace add up, for a Consumer built from [a]. *)
Definition signals_add_up (a : Consumer.Args) (w : World) : Prop :=
  let n := fun p => count p (trace w) in
  n (emits (on_this at_close)) + n (emits (on_this transportclose))
    = b2n (_closed (self w))
  /\ n (emits (on_observer obs_close))
     = n (emits_heard (on_this at_close)) + n (emits (on_this transportclose))
  /\ b2n (negb (enabled (Consumer.arg_track a))) + n (emits (on_this at_pause))
     = b2n (_paused (self w)) + n (emits (on_this at_resume))
  /\ n is_set_enabled
     = n (emits (on_this at_pause)) + n (emits (on_this at_resume))
  /\ n (emits (on_observer obs_pause)) = n (emits_heard (on_this at_pause))
  /\ n (emits (on_observer obs_resume)) = n (emits_heard (on_this at_resume)).

(** The effect is a call that changes the track. *)
Definition is_track_write (x : Effect) : bool :=
  match x with
  | Track_addEventListener | Track_removeEventListener _ | Track_stop _
  | Track_set_enabled _ => true
  | _ => false
  end.


Definition is_attach (x : Effect) : bool :=
  match x with Track_addEventListener => true | _ => false end.

(** A sample track and sample constructor arguments. *)
Definition sample_track : MediaStreamTrack := mkTrack video true live false.
Definition sample_args : Consumer.Args :=
  Consumer.mkArgs "consumer-1" "0" "producer-1" None sample_track 0 None.

(** An owner whose handlers all fail, in front of a sound track. *)
Definition failing_owner : Env :=
  mkEnv (fun ev _ => match ev with on_this _ => Some (ForeignError 1) | _ => None end)
        None None.

(** A track on which both [removeEventListener] and [stop] fail. *)
Definition broken_track : Env :=
  mkEnv (fun _ _ => None) (Some (ForeignError 2)) (Some (ForeignError 3)).



(** * Proofs *)

Ltac open_world w :=
  let c := fresh "c" in let t := fresh "t" in
  destruct w as [c ? ?]; destruct c as [? ? ? ? ? t ? ? ?]; destruct t.

Ltac open_env env :=
  let r := fresh "r" in let s := fresh "s" in
  destruct env as [? r s]; destruct r, s.

Ltac unfold_methods :=
  repeat progress
  unfold Consumer.close, Consumer.transportClosed, Consumer.getStats,
    Consumer.pause, Consumer.resume, Consumer.onTrackEnded,
    Consumer.destroyTrack, Consumer.handleTrack, Consumer.constructor,
    Consumer.write_appData, track_fires_ended,
    async, new_Promise, emit, safeEmit, deliver,
    track.write_enabled, track.addEventListener, track.removeEventListener,
    track.stop, logger.debug, logger.error,
    try_catch, bind, ret, throw, ask, get, put, tell, fresh_promise,
    set_closed, set_paused, set_track, set_appData, view_of,
    with_enabled, with_readyState, with_ended_listener in *.

Ltac flatten_trace := rewrite <- ?app_assoc; cbn [app].

Ltac case_listeners :=
  repeat match goal with
    | |- context [match ?l ?ev ?v with Some _ => _ | None => _ end] =>
        let E := fresh "Hl" in destruct (l ev v) eqn:E; cbn in *
    end.

(** ** What each method does, as an equation *)

Lemma emissions_app (t u : list Effect) :
  emissions (t ++ u) = emissions t ++ emissions u.
Proof. apply filter_app. Qed.

Lemma count_app (p : Effect -> bool) (t u : list Effect) :
  count p (t ++ u) = count p t + count p u.
Proof. unfold count. now rewrite filter_app, length_app. Qed.

Lemma constructor_run (a : Consumer.Args) (env : Env) (w : World) :
  Consumer.constructor a env w =
  (mkWorld
     (mkConsumer (Consumer.arg_id a) (Consumer.arg_localId a)
        (Consumer.arg_producerId a) false (Consumer.arg_rtpReceiver a)
        (with_ended_listener true (Consumer.arg_track a))
        (Consumer.arg_rtpParameters a)
        (negb (enabled (Consumer.arg_track a)))
        (match Consumer.arg_appData a with Some d => d | None => [] end))
     (trace w ++ [Log debug "constructor()"; Track_addEventListener])
     (promises w),
   Returned tt).
Proof. unfold_methods. cbn. flatten_trace. reflexivity. Qed.

Lemma destroyTrack_run (env : Env) (w : World) :
  Consumer.destroyTrack env w =
  (mkWorld (set_track (destroyed env (_track (self w))) (self w))
           (trace w ++ destroy_effects env) (promises w),
   Returned tt).
Proof.
  open_world w. unfold destroyed, destroy_effects. open_env env;
    unfold_methods; cbn; flatten_trace; reflexivity.
Qed.

Lemma close_closed (env : Env) (w : World) :
  _closed (self w) = true -> Consumer.close env w = (w, Returned tt).
Proof.
  intros H. open_world w. cbn in H. subst. reflexivity.
Qed.

Lemma transportClosed_closed (env : Env) (w : World) :
  _closed (self w) = true -> Consumer.transportClosed env w = (w, Returned tt).
Proof.
  intros H. open_world w. cbn in H. subst. reflexivity.
Qed.

Lemma close_open (env : Env) (w : World) :
  _closed (self w) = false ->
  let c' := terminated env (self w) in
  Consumer.close env w =
  (mkWorld c'
     (trace w ++ Log debug "close()" :: destroy_effects env
        ++ owner_then_observer env at_close obs_close c')
     (promises w),
   outcome (listeners env (on_this at_close) (view_of c'))).
Proof.
  intros H. open_world w. cbn in H. subst.
  unfold terminated, destroyed, destroy_effects, owner_then_observer. open_env env;
    unfold_methods; cbn; case_listeners; flatten_trace; reflexivity.
Qed.

Lemma transportClosed_open (env : Env) (w : World) :
  _closed (self w) = false ->
  let c' := terminated env (self w) in
  Consumer.transportClosed env w =
  (mkWorld c'
     (trace w ++ Log debug "transportClosed()" :: destroy_effects env
        ++ [Emitted by_safeEmit (on_this transportclose) (view_of c')
              (listeners env (on_this transportclose) (view_of c'));
            Emitted by_safeEmit (on_observer obs_close) (view_of c')
              (listeners env (on_observer obs_close) (view_of c'))])
     (promises w),
   Returned tt).
Proof.
  intros H. open_world w. cbn in H. subst.
  unfold terminated, destroyed, destroy_effects. open_env env;
    unfold_methods; cbn; case_listeners; flatten_trace; reflexivity.
Qed.

Lemma getStats_run (env : Env) (w : World) :
  Consumer.getStats env w =
  if _closed (self w)
  then (w, Returned (rejected (InvalidStateError "closed")))
  else
    let request :=
      on_this (at_getstats (resolve_of (promises w)) (reject_of (promises w))) in
    (mkWorld (self w)
       (trace w ++ [Emitted by_safeEmit request (view_of (self w))
                      (listeners env request (view_of (self w)))])
       (S (promises w)),
     Returned (pending (promises w))).
Proof.
  open_world w. destruct _closed0; unfold_methods; cbn; [reflexivity|].
  case_listeners; reflexivity.
Qed.

Lemma pause_noop (env : Env) (w : World) :
  _closed (self w) = true \/ _paused (self w) = true ->
  Consumer.pause env w =
  (mkWorld (self w) (trace w ++ pause_already (self w)) (promises w), Returned tt).
Proof.
  intros H. open_world w. unfold pause_already. cbn in *.
  destruct _closed0, _paused0; try (destruct H; discriminate);
    unfold_methods; cbn; flatten_trace; reflexivity.
Qed.

Lemma resume_noop (env : Env) (w : World) :
  _closed (self w) = true \/ _paused (self w) = false ->
  Consumer.resume env w =
  (mkWorld (self w) (trace w ++ resume_already (self w)) (promises w), Returned tt).
Proof.
  intros H. open_world w. unfold resume_already. cbn in *.
  destruct _closed0, _paused0; try (destruct H; discriminate);
    unfold_methods; cbn; flatten_trace; reflexivity.
Qed.

Lemma pause_active (env : Env) (w : World) :
  _closed (self w) = false -> _paused (self w) = false ->
  let c' := switched true (self w) in
  Consumer.pause env w =
  (mkWorld c'
     (trace w ++ Log debug "pause()" :: Track_set_enabled false
        :: owner_then_observer env at_pause obs_pause c')
     (promises w),
   outcome (listeners env (on_this at_pause) (view_of c'))).
Proof.
  intros H1 H2. open_world w. cbn in H1, H2. subst.
  unfold switched, owner_then_observer. unfold_methods; cbn; case_listeners; flatten_trace; reflexivity.
Qed.

Lemma resume_paused (env : Env) (w : World) :
  _closed (self w) = false -> _paused (self w) = true ->
  let c' := switched false (self w) in
  Consumer.resume env w =
  (mkWorld c'
     (trace w ++ Log debug "resume()" :: Track_set_enabled true
        :: owner_then_observer env at_resume obs_resume c')
     (promises w),
   outcome (listeners env (on_this at_resume) (view_of c'))).
Proof.
  intros H1 H2. open_world w. cbn in H1, H2. subst.
  unfold switched, owner_then_observer. unfold_methods; cbn; case_listeners; flatten_trace; reflexivity.
Qed.

Lemma onTrackEnded_run (env : Env) (w : World) :
  Consumer.onTrackEnded env w =
  (mkWorld (self w) (trace w ++ trackended_effects env (self w)) (promises w),
   Returned tt).
Proof.
  open_world w. unfold trackended_effects.
  unfold_methods; cbn; case_listeners; flatten_trace; reflexivity.
Qed.

Lemma track_fires_ended_run (env : Env) (w : World) :
  track_fires_ended env w =
  if ended_listener (_track (self w))
  then Consumer.onTrackEnded env w
  else (w, Returned tt).
Proof. open_world w. destruct ended_listener0; reflexivity. Qed.

Lemma fst_void (m : M unit) (env : Env) (w : World) :
  fst (void m env w) = fst (m env w).
Proof. unfold void, bind, ret. now destruct (m env w) as [w' [[]|e]]. Qed.

Lemma after_world (env : Env) (c : Call) (w : World) :
  after (env, c) w =
  mkWorld (transition env c (self w))
          (trace w ++ effects env c (self w) (promises w))
          (match c with
           | call_getStats => if _closed (self w) then promises w else S (promises w)
           | _ => promises w
           end).
Proof.
  unfold after; cbn [fst snd]. destruct c; cbn [perform transition effects];
    rewrite ?fst_void.
  - destruct (_closed (self w)) eqn:H.
    + rewrite close_closed by assumption. cbn. rewrite app_nil_r. now destruct w.
    + rewrite close_open by assumption. reflexivity.
  - destruct (_closed (self w)) eqn:H.
    + rewrite transportClosed_closed by assumption. cbn. rewrite app_nil_r. now destruct w.
    + rewrite transportClosed_open by assumption. reflexivity.
  - unfold bind, ret. rewrite getStats_run. destruct (_closed (self w)); cbn.
    + rewrite app_nil_r. now destruct w.
    + reflexivity.
  - destruct (_closed (self w)) eqn:H1; [|destruct (_paused (self w)) eqn:H2]; cbn [orb].
    + rewrite pause_noop by now left. reflexivity.
    + rewrite pause_noop by now right. reflexivity.
    + rewrite pause_active by assumption. reflexivity.
  - destruct (_closed (self w)) eqn:H1; [|destruct (_paused (self w)) eqn:H2];
      cbn [orb negb].
    + rewrite resume_noop by now left. reflexivity.
    + rewrite resume_paused by assumption. reflexivity.
    + rewrite resume_noop by now right. reflexivity.
  - unfold_methods. cbn. rewrite app_nil_r. reflexivity.
  - rewrite track_fires_ended_run.
    destruct (ended_listener (_track (self w))).
    + rewrite onTrackEnded_run. reflexivity.
    + cbn. rewrite app_nil_r. now destruct w.
Qed.

Lemma after_self (env : Env) (c : Call) (w : World) :
  self (after (env, c) w) = transition env c (self w).
Proof. now rewrite after_world. Qed.

Lemma after_trace (env : Env) (c : Call) (w : World) :
  trace (after (env, c) w) = trace w ++ effects env c (self w) (promises w).
Proof. now rewrite after_world. Qed.

(** ** Sequences of calls *)

Lemma run_cons (ec : Env * Call) (calls : list (Env * Call)) (w : World) :
  run (ec :: calls) w = run calls (after ec w).
Proof. reflexivity. Qed.

Section Invariants.
Variable I : World -> Prop.
Hypothesis preserved : forall ec w, I w -> I (after ec w).

Lemma worlds_invariant (calls : list (Env * Call)) :
  forall w, I w -> Forall I (worlds calls w).
Proof.
  induction calls as [|ec rest IH]; intros w Hw; cbn [worlds].
  - constructor.
  - constructor; [|apply IH]; now apply preserved.
Qed.

Lemma run_invariant (calls : list (Env * Call)) :
  forall w, I w -> I (run calls w).
Proof.
  induction calls as [|ec rest IH]; intros w Hw.
  - exact Hw.
  - rewrite run_cons. apply IH. now apply preserved.
Qed.
End Invariants.

Lemma enabled_destroyed (env : Env) (t : MediaStreamTrack) :
  enabled (destroyed env t) = enabled t.
Proof.
  unfold destroyed.
  destruct (removeEventListener_throws env), (stop_throws env); reflexivity.
Qed.

Lemma in_sync_new (a : Consumer.Args) : in_sync (new_Consumer a).
Proof.
  unfold new_Consumer, in_sync. rewrite constructor_run. cbn.
  now rewrite negb_involutive.
Qed.

Lemma in_sync_after (ec : Env * Call) (w : World) :
  in_sync w -> in_sync (after ec w).
Proof.
  destruct ec as [env c]. unfold in_sync. rewrite after_self.
  intros H. destruct c; cbn [transition];
    repeat match goal with
      | |- context [if ?b then _ else _] => destruct b eqn:?
      end;
    cbn; rewrite ?enabled_destroyed; auto.
Qed.

Lemma in_sync_always (a : Consumer.Args) (calls : list (Env * Call)) :
  in_sync (run calls (new_Consumer a)).
Proof. apply run_invariant; [apply in_sync_after | apply in_sync_new]. Qed.

Lemma closed_after (ec : Env * Call) (w : World) :
  _closed (self w) = true -> _closed (self (after ec w)) = true.
Proof.
  destruct ec as [env c]. rewrite after_self. intros H.
  destruct c; cbn [transition]; rewrite ?H; cbn [orb]; auto.
Qed.

Lemma detached_when_open_after (ec : Env * Call) (w : World) :
  (_closed (self w) = false -> ended_listener (_track (self w)) = true) ->
  _closed (self (after ec w)) = false ->
  ended_listener (_track (self (after ec w))) = true.
Proof.
  destruct ec as [env c]. rewrite after_self. intros H.
  destruct c; cbn [transition];
    repeat match goal with
      | |- context [if ?b then _ else _] => destruct b eqn:?
      end;
    cbn; auto; try discriminate;
    intros; apply H;
    repeat match goal with
      | E : _ || _ = false |- _ => apply orb_false_elim in E; destruct E
      end; auto; congruence.
Qed.

Lemma attached_while_open (a : Consumer.Args) (calls : list (Env * Call)) :
  _closed (self (run calls (new_Consumer a))) = false ->
  ended_listener (_track (self (run calls (new_Consumer a)))) = true.
Proof.
  apply (run_invariant
           (fun w => _closed (self w) = false ->
                     ended_listener (_track (self w)) = true)).
  - intros ec w. apply detached_when_open_after.
  - unfold new_Consumer. rewrite constructor_run. reflexivity.
Qed.

Lemma destroyed_detached (env : Env) (t : MediaStreamTrack) :
  removeEventListener_throws env = None ->
  ended_listener (destroyed env t) = false.
Proof.
  unfold destroyed. intros ->. now destruct (stop_throws env).
Qed.


Lemma destroyed_untouched (env : Env) (t : MediaStreamTrack) (e : Error) :
  removeEventListener_throws env = Some e -> destroyed env t = t.
Proof. unfold destroyed. now intros ->. Qed.

Ltac case_effects :=
  repeat match goal with
    | |- context [if ?b then _ else _] => destruct b eqn:?
    | |- context [match ?o with Some _ => _ | None => _ end] => destruct o eqn:?
    end.

Lemma count_detach_effects (env : Env) (c : Call) (s : Consumer) (p : nat) :
  count is_detach (effects env c s p) =
  match c with
  | call_close | call_transportClosed => if _closed s then 0 else 1
  | _ => 0
  end.
Proof.
  destruct c; unfold effects, destroy_effects, owner_then_observer,
    pause_already, resume_already, trackended_effects;
    case_effects; reflexivity.
Qed.

Lemma count_stop_effects (env : Env) (c : Call) (s : Consumer) (p : nat) :
  count is_stop (effects env c s p) =
  match c with
  | call_close | call_transportClosed =>
      if _closed s then 0
      else match removeEventListener_throws env with Some _ => 0 | None => 1 end
  | _ => 0
  end.
Proof.
  destruct c; unfold effects, destroy_effects, owner_then_observer,
    pause_already, resume_already, trackended_effects;
    case_effects; reflexivity.
Qed.

Lemma closed_transition (env : Env) (c : Call) (s : Consumer) :
  _closed (transition env c s) = _closed s || terminating c.
Proof.
  destruct c; cbn [transition terminating];
    destruct (_closed s) eqn:Hc; cbn [orb]; auto;
    destruct (_paused s); cbn; auto.
Qed.

Lemma destroyed_once_after (ec : Env * Call) (w : World) :
  destroyed_once w -> destroyed_once (after ec w).
Proof.
  destruct ec as [env c]. unfold destroyed_once.
  rewrite after_self, after_trace, !count_app,
    count_detach_effects, count_stop_effects, closed_transition.
  intros [H1 H2]. rewrite H1 in *.
  destruct c; cbn [terminating];
    destruct (_closed (self w)); cbn [orb];
    try destruct (removeEventListener_throws env); lia.
Qed.

Lemma destroyed_once_always (a : Consumer.Args) (calls : list (Env * Call)) :
  destroyed_once (run calls (new_Consumer a)).
Proof.
  apply run_invariant; [apply destroyed_once_after|].
  unfold new_Consumer, destroyed_once. rewrite constructor_run. cbn. lia.
Qed.

Lemma effects_delivered_as_in_source (env : Env) (c : Call) (s : Consumer) (p : nat) :
  Forall delivered_as_in_source (effects env c s p).
Proof.
  destruct c; unfold effects, destroy_effects, owner_then_observer,
    pause_already, resume_already, trackended_effects;
    case_effects; repeat constructor.
Qed.

Lemma delivered_as_in_source_always (a : Consumer.Args) (calls : list (Env * Call)) :
  Forall delivered_as_in_source (trace (run calls (new_Consumer a))).
Proof.
  apply (run_invariant (fun w => Forall delivered_as_in_source (trace w))).
  - intros [env c] w H. rewrite after_trace. apply Forall_app. split; [exact H|].
    apply effects_delivered_as_in_source.
  - unfold new_Consumer. rewrite constructor_run. repeat constructor.
Qed.

(** * The claims *)

(** C1.  Take a Consumer at any point of its life at which it is not
    closed, and call [pause()] and [resume()] on it in any order and
    number, whatever the listeners do: after each call the track's
    [enabled] flag is the negation of [_paused]. *)
Theorem pause_resume_keep_track_in_sync :
  forall (a : Consumer.Args) (before calls : list (Env * Call)),
    let w := run before (new_Consumer a) in
    _closed (self w) = false ->
    Forall (fun ec => snd ec = call_pause \/ snd ec = call_resume) calls ->
    Forall (fun w' => enabled (_track (self w')) = negb (_paused (self w')))
           (worlds calls w).
Proof.
  intros a before calls w _ _.
  apply (worlds_invariant in_sync in_sync_after). apply in_sync_always.
Qed.

Lemma pause_resume_keep_track_in_sync_witness :
  let calls := [(quiet, call_pause); (failing_owner, call_resume);
                (quiet, call_resume); (failing_owner, call_pause)] in
  Forall (fun w' => enabled (_track (self w')) = negb (_paused (self w')))
         (worlds calls (run [] (new_Consumer sample_args))).
Proof.
  intros calls.
  apply (pause_resume_keep_track_in_sync sample_args [] calls).
  - reflexivity.
  - repeat (apply Forall_cons; [first [left; reflexivity | right; reflexivity]|]).
    apply Forall_nil.
Defined.

(** C2.  Once [_closed] is true nothing makes it false again, whatever
    is called afterwards; and on a closed Consumer [close()] and
    [transportClosed()] return at once, leaving the whole world as it
    was: no field changes, nothing is emitted on either emitter, the
    track is not touched. *)
Theorem closed_is_final :
  forall w : World,
    _closed (self w) = true ->
    (forall calls, Forall (fun w' => _closed (self w') = true) (worlds calls w))
    /\ (forall env, Consumer.close env w = (w, Returned tt))
    /\ (forall env, Consumer.transportClosed env w = (w, Returned tt)).
Proof.
  intros w H. split; [|split].
  - intros calls.
    apply (worlds_invariant (fun w' => _closed (self w') = true) closed_after), H.
  - intros env. now apply close_closed.
  - intros env. now apply transportClosed_closed.
Qed.

Lemma closed_is_final_witness :
  let w := after (quiet, call_close) (new_Consumer sample_args) in
  Forall (fun w' => _closed (self w') = true)
         (worlds [(quiet, call_resume); (failing_owner, call_transportClosed);
                  (quiet, call_close)] w)
  /\ Consumer.close failing_owner w = (w, Returned tt)
  /\ Consumer.transportClosed failing_owner w = (w, Returned tt).
Proof.
  intros w.
  destruct (closed_is_final w eq_refl) as [H1 [H2 H3]].
  split; [apply H1 | split; [apply H2 | apply H3]].
Defined.

(** C4.  [getStats()] on a closed Consumer: the body throws
    [InvalidStateError('closed')] before anything else, so the promise
    the [async] method hands back is already rejected with it when the
    call returns, and nothing is emitted (the world is untouched).  On a
    Consumer that is not closed: exactly one ['@getstats'] is emitted,
    carrying the [resolve] and the [reject] of a fresh promise, and the
    result is pending on that promise. *)
Theorem getStats_closed_or_pending :
  forall (env : Env) (w : World),
    Consumer.getStats env w =
    if _closed (self w)
    then (w, Returned (rejected (InvalidStateError "closed")))
    else
      let p := promises w in
      (mkWorld (self w)
         (trace w ++
            [Emitted by_safeEmit (on_this (at_getstats (resolve_of p) (reject_of p)))
               (view_of (self w))
               (listeners env (on_this (at_getstats (resolve_of p) (reject_of p)))
                  (view_of (self w)))])
         (S p),
       Returned (pending p)).
Proof. intros env w. apply getStats_run. Qed.

(** C7.  [pause()] on a Consumer that is already paused, and [resume()]
    on one that is already active, return normally, change no field of
    the Consumer or of its track, and append nothing to the trace but
    their two log lines: no event on either emitter, no write to the
    track. *)
Theorem redundant_pause_resume_do_nothing :
  forall (env : Env) (w : World),
    (_paused (self w) = true ->
     Consumer.pause env w =
     (mkWorld (self w) (trace w ++ pause_already (self w)) (promises w),
      Returned tt)
     /\ emissions (pause_already (self w)) = [])
    /\ (_paused (self w) = false ->
        Consumer.resume env w =
        (mkWorld (self w) (trace w ++ resume_already (self w)) (promises w),
         Returned tt)
        /\ emissions (resume_already (self w)) = []).
Proof.
  intros env w. split; intros H; split.
  - apply pause_noop. now right.
  - unfold pause_already. now destruct (_closed (self w)).
  - apply resume_noop. now right.
  - unfold resume_already. now destruct (_closed (self w)).
Qed.

Lemma redundant_pause_resume_do_nothing_witness :
  let paused := after (quiet, call_pause) (new_Consumer sample_args) in
  let active := new_Consumer sample_args in
  (Consumer.pause failing_owner paused =
   (mkWorld (self paused) (trace paused ++ pause_already (self paused))
            (promises paused), Returned tt)
   /\ emissions (pause_already (self paused)) = [])
  /\ (Consumer.resume failing_owner active =
      (mkWorld (self active) (trace active ++ resume_already (self active))
               (promises active), Returned tt)
      /\ emissions (resume_already (self active)) = []).
Proof.
  intros paused active. split.
  - apply (proj1 (redundant_pause_resume_do_nothing failing_owner paused)).
    reflexivity.
  - apply (proj2 (redundant_pause_resume_do_nothing failing_owner active)).
    reflexivity.
Defined.

(** C8.  For every supplied track, the constructor sets [_paused] to the
    negation of the track's [enabled] flag at that moment and leaves
    [_closed] false; it returns normally, does not write the track's
    flag, and emits nothing: its only effects are a debug line and the
    registration of the ['ended'] listener. *)
Theorem constructor_derives_paused :
  forall (a : Consumer.Args) (env : Env) (w : World),
    let r := Consumer.constructor a env w in
    snd r = Returned tt
    /\ _paused (self (fst r)) = negb (enabled (Consumer.arg_track a))
    /\ _closed (self (fst r)) = false
    /\ enabled (_track (self (fst r))) = enabled (Consumer.arg_track a)
    /\ trace (fst r) = trace w ++ [Log debug "constructor()"; Track_addEventListener]
    /\ emissions (trace (fst r)) = emissions (trace w).
Proof.
  intros a env w r. subst r. rewrite constructor_run. cbn [fst snd self trace].
  repeat split.
  rewrite emissions_app. cbn. apply app_nil_r.
Qed.

(** C3.  The track's end-of-life notification reaches the Consumer as
    a call of [onTrackEnded].  On every closed Consumer, straight after
    [close()] or at any later time and whatever the listeners do, that
    call returns normally; it appends to the trace its log line and
    then exactly one [trackended] on the public emitter and exactly one
    on the observer, both through [safeEmit]; and it leaves every field
    of the Consumer and of its track as it was, so [_closed] stays true
    and [_paused] keeps its value. *)
Theorem trackended_after_close :
  forall (env : Env) (w : World),
    _closed (self w) = true ->
    let r := Consumer.onTrackEnded env w in
    snd r = Returned tt
    /\ self (fst r) = self w
    /\ _closed (self (fst r)) = true
    /\ _paused (self (fst r)) = _paused (self w)
    /\ trace (fst r) =
       trace w ++
       [Log debug track_ended_message;
        Emitted by_safeEmit (on_this trackended) (view_of (self w))
          (listeners env (on_this trackended) (view_of (self w)));
        Emitted by_safeEmit (on_observer obs_trackended) (view_of (self w))
          (listeners env (on_observer obs_trackended) (view_of (self w)))]
    /\ count is_public_trackended (trace (fst r)) =
       1 + count is_public_trackended (trace w)
    /\ count is_observer_trackended (trace (fst r)) =
       1 + count is_observer_trackended (trace w)
    /\ count is_emission (trace (fst r)) = 2 + count is_emission (trace w).
Proof.
  intros env w Hclosed r. subst r. rewrite onTrackEnded_run.
  cbn [fst snd self trace]. unfold trackended_effects.
  rewrite !count_app. cbn [count filter is_public_trackended
    is_observer_trackended is_emission List.length].
  repeat split; auto; lia.
Qed.

Lemma trackended_after_close_witness :
  let w := after (quiet, call_close) (new_Consumer sample_args) in
  let r := Consumer.onTrackEnded failing_owner w in
  snd r = Returned tt
  /\ self (fst r) = self w
  /\ _closed (self (fst r)) = true
  /\ _paused (self (fst r)) = _paused (self w)
  /\ trace (fst r) =
     trace w ++
     [Log debug track_ended_message;
      Emitted by_safeEmit (on_this trackended) (view_of (self w))
        (listeners failing_owner (on_this trackended) (view_of (self w)));
      Emitted by_safeEmit (on_observer obs_trackended) (view_of (self w))
        (listeners failing_owner (on_observer obs_trackended) (view_of (self w)))]
  /\ count is_public_trackended (trace (fst r)) =
     1 + count is_public_trackended (trace w)
  /\ count is_observer_trackended (trace (fst r)) =
     1 + count is_observer_trackended (trace w)
  /\ count is_emission (trace (fst r)) = 2 + count is_emission (trace w).
Proof.
  intros w r.
  exact (trackended_after_close failing_owner w eq_refl).
Defined.




(** C6, as the claim has it, does not hold for ['@getstats']: the
    request is emitted through [safeEmit].  With an owner whose handler
    throws, the delivery is recorded as failed, and [getStats()] still
    returns its pending promise: nothing reaches the caller. *)
Lemma getstats_handler_failure_is_absorbed :
  let w := new_Consumer sample_args in
  let request := on_this (at_getstats (resolve_of 0) (reject_of 0)) in
  listeners failing_owner request (view_of (self w)) = Some (ForeignError 1)
  /\ Consumer.getStats failing_owner w =
     (mkWorld (self w)
        (trace w ++ [Emitted by_safeEmit request (view_of (self w))
                       (Some (ForeignError 1))])
        1,
      Returned (pending 0)).
Proof. split; reflexivity. Qed.

(** C6, amended.  The ['@close'], ['@pause'] and ['@resume'] signals
    are emitted through [emit], without the failure-isolating wrapper:
    when the owner's handler throws, that failure is what [close()],
    [pause()] or [resume()] throws to its caller.  The ['@getstats']
    request is emitted through [safeEmit]: whatever its handler does,
    [getStats()] returns its pending promise.  In every trace a
    Consumer can produce, these three signals are the only events
    delivered by [emit]. *)
Theorem owner_signals_delivery :
  forall (env : Env) (w : World) (e : Error),
    _closed (self w) = false ->
    ((forall v, listeners env (on_this at_close) v = Some e) ->
     snd (Consumer.close env w) = Thrown e)
    /\ ((forall v, listeners env (on_this at_pause) v = Some e) ->
        _paused (self w) = false ->
        snd (Consumer.pause env w) = Thrown e)
    /\ ((forall v, listeners env (on_this at_resume) v = Some e) ->
        _paused (self w) = true ->
        snd (Consumer.resume env w) = Thrown e)
    /\ snd (Consumer.getStats env w) = Returned (pending (promises w))
    /\ forall (a : Consumer.Args) (calls : list (Env * Call)),
         Forall delivered_as_in_source (trace (run calls (new_Consumer a))).
Proof.
  intros env w e Hopen. repeat split.
  - intros H. rewrite close_open by assumption. cbn [snd]. now rewrite H.
  - intros H Hp. rewrite pause_active by assumption. cbn [snd]. now rewrite H.
  - intros H Hp. rewrite resume_paused by assumption. cbn [snd]. now rewrite H.
  - rewrite getStats_run, Hopen. reflexivity.
  - apply delivered_as_in_source_always.
Qed.

Lemma owner_signals_delivery_witness :
  let active := new_Consumer sample_args in
  let paused := after (quiet, call_pause) (new_Consumer sample_args) in
  snd (Consumer.close failing_owner active) = Thrown (ForeignError 1)
  /\ snd (Consumer.pause failing_owner active) = Thrown (ForeignError 1)
  /\ snd (Consumer.resume failing_owner paused) = Thrown (ForeignError 1)
  /\ snd (Consumer.getStats failing_owner active) = Returned (pending 0).
Proof.
  intros active paused.
  destruct (owner_signals_delivery failing_owner active (ForeignError 1) eq_refl)
    as [Hclose [Hpause [_ [Hstats _]]]].
  destruct (owner_signals_delivery failing_owner paused (ForeignError 1) eq_refl)
    as [_ [_ [Hresume _]]].
  split; [apply Hclose; reflexivity|].
  split; [apply Hpause; reflexivity|].
  split; [apply Hresume; reflexivity|].
  exact Hstats.
Defined.

(** C9.  Let the track fail during termination, in its
    [removeEventListener] or in its [stop()].  Then [close()] and
    [transportClosed()] on an open Consumer still set [_closed] and
    still go on to emit their signal; [transportClosed()] returns
    normally, and so does [close()] unless the owner's ['@close']
    handler throws: the outcome of the call is decided by that handler
    alone, never by the track. *)
Theorem termination_survives_track_failure :
  forall (env : Env) (w : World),
    _closed (self w) = false ->
    removeEventListener_throws env <> None \/ stop_throws env <> None ->
    let closed := fst (Consumer.close env w) in
    let torn := fst (Consumer.transportClosed env w) in
    _closed (self closed) = true
    /\ snd (Consumer.close env w) =
       outcome (listeners env (on_this at_close) (view_of (self closed)))
    /\ count is_emission (trace closed) = S (count is_emission (trace w))
         + match listeners env (on_this at_close) (view_of (self closed)) with
           | Some _ => 0
           | None => 1
           end
    /\ _closed (self torn) = true
    /\ snd (Consumer.transportClosed env w) = Returned tt
    /\ count is_emission (trace torn) = 2 + count is_emission (trace w).
Proof.
  intros env w Hopen _ closed torn. subst closed torn.
  rewrite close_open, transportClosed_open by assumption.
  cbn [fst snd self trace]. unfold terminated at 1 4. cbn [_closed set_track set_closed].
  repeat split.
  - rewrite count_app. cbn [count]. unfold destroy_effects, owner_then_observer.
    destruct (removeEventListener_throws env);
      destruct (listeners env (on_this at_close) _); cbn; lia.
  - rewrite count_app. unfold destroy_effects.
    destruct (removeEventListener_throws env); cbn; lia.
Qed.

Lemma termination_survives_track_failure_witness :
  let w := new_Consumer sample_args in
  let closed := fst (Consumer.close broken_track w) in
  let torn := fst (Consumer.transportClosed broken_track w) in
  _closed (self closed) = true
  /\ snd (Consumer.close broken_track w) = Returned tt
  /\ count is_emission (trace closed) = 2
  /\ _closed (self torn) = true
  /\ snd (Consumer.transportClosed broken_track w) = Returned tt
  /\ count is_emission (trace torn) = 2.
Proof.
  intros w closed torn.
  refine (termination_survives_track_failure broken_track w eq_refl _).
  left. discriminate.
Defined.




(** * Further properties of the class *)

(** ** Tools *)

Lemma run_app (l1 l2 : list (Env * Call)) (w : World) :
  run (l1 ++ l2) w = run l2 (run l1 w).
Proof. apply fold_left_app. Qed.

Lemma snd_void (m : M unit) (env : Env) (w : World) :
  snd (void m env w) =
  match snd (m env w) with
  | Returned _ => Returned None
  | Thrown e => Thrown e
  end.
Proof. unfold void, bind, ret. now destruct (m env w) as [w' [[]|e]]. Qed.

Lemma perform_result (env : Env) (c : Call) (w : World) :
  snd (perform c env w) = result env c (self w) (promises w).
Proof.
  destruct c; cbn [perform result]; rewrite ?snd_void.
  - destruct (_closed (self w)) eqn:H.
    + now rewrite close_closed.
    + rewrite close_open by assumption. cbn [snd].
      now destruct (listeners env (on_this at_close) _).
  - destruct (_closed (self w)) eqn:H.
    + now rewrite transportClosed_closed.
    + now rewrite transportClosed_open.
  - unfold bind, ret. rewrite getStats_run. now destruct (_closed (self w)).
  - destruct (_closed (self w)) eqn:H1; [|destruct (_paused (self w)) eqn:H2];
      cbn [orb].
    + now rewrite pause_noop by now left.
    + now rewrite pause_noop by now right.
    + rewrite pause_active by assumption. cbn [snd].
      now destruct (listeners env (on_this at_pause) _).
  - destruct (_closed (self w)) eqn:H1; [|destruct (_paused (self w)) eqn:H2];
      cbn [orb negb].
    + now rewrite resume_noop by now left.
    + rewrite resume_paused by assumption. cbn [snd].
      now destruct (listeners env (on_this at_resume) _).
    + now rewrite resume_noop by now right.
  - reflexivity.
  - rewrite track_fires_ended_run.
    destruct (ended_listener (_track (self w))); [|reflexivity].
    now rewrite onTrackEnded_run.
Qed.

Lemma perform_world (env : Env) (c : Call) (w : World) :
  perform c env w = (after (env, c) w, result env c (self w) (promises w)).
Proof.
  rewrite <- perform_result. unfold after. cbn [fst snd].
  now destruct (perform c env w).
Qed.

Lemma kind_destroyed (env : Env) (t : MediaStreamTrack) :
  kind (destroyed env t) = kind t.
Proof.
  unfold destroyed.
  destruct (removeEventListener_throws env), (stop_throws env); reflexivity.
Qed.

Lemma identity_transition (env : Env) (c : Call) (s : Consumer) :
  identity_of (transition env c s) = identity_of s.
Proof.
  destruct c; cbn [transition];
    repeat match goal with
      | |- context [if ?b then _ else _] => destruct b
      end;
    unfold identity_of; cbn; rewrite ?kind_destroyed; reflexivity.
Qed.

Lemma identity_always (a : Consumer.Args) (calls : list (Env * Call)) :
  identity_of (self (run calls (new_Consumer a))) =
  (Consumer.arg_id a, Consumer.arg_localId a, Consumer.arg_producerId a,
   Consumer.arg_rtpReceiver a, Consumer.arg_rtpParameters a,
   kind (Consumer.arg_track a)).
Proof.
  apply (run_invariant (fun w => identity_of (self w) = _)).
  - intros [env c] w H. now rewrite after_self, identity_transition.
  - unfold new_Consumer. rewrite constructor_run. reflexivity.
Qed.

(** ** Identity *)

(** X1.  What the constructor was given as id, local id, producer id,
    receiver and RTP parameters, and the kind of the supplied track, is
    what the getters answer for the rest of the Consumer's life,
    whatever has been called on it in between (closing included); and
    reading them changes nothing. *)
Theorem identity_never_changes :
  forall (a : Consumer.Args) (calls : list (Env * Call)) (env : Env),
    let w := run calls (new_Consumer a) in
    Consumer.id env w = (w, Returned (Consumer.arg_id a))
    /\ Consumer.localId env w = (w, Returned (Consumer.arg_localId a))
    /\ Consumer.producerId env w = (w, Returned (Consumer.arg_producerId a))
    /\ Consumer.rtpReceiver env w = (w, Returned (Consumer.arg_rtpReceiver a))
    /\ Consumer.rtpParameters env w = (w, Returned (Consumer.arg_rtpParameters a))
    /\ Consumer.kind env w = (w, Returned (kind (Consumer.arg_track a))).
Proof.
  intros a calls env w.
  pose proof (identity_always a calls) as H. fold w in H.
  unfold identity_of in H. injection H as H1 H2 H3 H4 H5 H6.
  unfold Consumer.id, Consumer.localId, Consumer.producerId,
    Consumer.rtpReceiver, Consumer.rtpParameters, Consumer.kind,
    bind, get, ret.
  now rewrite H1, H2, H3, H4, H5, H6.
Qed.

(** ** Application data *)

Lemma appData_transition (env : Env) (c : Call) (s : Consumer) :
  _appData (transition env c s) =
  match c with
  | call_set_appData d => d
  | _ => _appData s
  end.
Proof.
  destruct c; cbn [transition];
    repeat match goal with
      | |- context [if ?b then _ else _] => destruct b
      end; reflexivity.
Qed.

Lemma appData_kept (later : list (Env * Call)) :
  Forall (fun ec => forall d, snd ec <> call_set_appData d) later ->
  forall w, _appData (self (run later w)) = _appData (self w).
Proof.
  induction 1 as [|[env c] rest Hc _ IH]; intros w; [reflexivity|].
  rewrite run_cons, IH, after_self, appData_transition.
  destruct c; try reflexivity. now destruct (Hc appData).
Qed.

(** X2.  [appData] reads back what was last written to it: the
    constructor's argument (an empty record when none was given) as
    long as the setter has not been called, and after a call of the
    setter the value it was given, whatever else is called before or
    after, closing included.  The setter has no guard and no effect
    besides the field: it returns normally and appends nothing to the
    trace, on a closed Consumer as on an open one. *)
Theorem appData_is_last_written :
  forall (a : Consumer.Args) (before later : list (Env * Call)) (env : Env),
    Forall (fun ec => forall d, snd ec <> call_set_appData d) later ->
    snd (Consumer.appData env (run later (new_Consumer a))) =
      Returned (match Consumer.arg_appData a with Some d => d | None => [] end)
    /\ forall (env_set : Env) (d : AppData),
         let w := run before (new_Consumer a) in
         snd (Consumer.appData env (run later (after (env_set, call_set_appData d) w)))
           = Returned d
         /\ trace (after (env_set, call_set_appData d) w) = trace w
         /\ snd (perform (call_set_appData d) env_set w) = Returned None.
Proof.
  intros a before later env Hlater. split.
  - unfold Consumer.appData, bind, get, ret. cbn [snd].
    rewrite (appData_kept _ Hlater). unfold new_Consumer.
    now rewrite constructor_run.
  - intros env_set d w. split; [|split; reflexivity].
    unfold Consumer.appData, bind, get, ret. cbn [snd].
    now rewrite (appData_kept _ Hlater), after_self.
Qed.

Lemma appData_is_last_written_witness :
  let later := [(quiet, call_pause); (failing_owner, call_close);
                (quiet, call_getStats)] in
  snd (Consumer.appData quiet (run later (new_Consumer sample_args))) = Returned []
  /\ snd (Consumer.appData quiet
            (run later
               (after (quiet, call_set_appData [("user", "alice")])
                  (run [(quiet, call_transportClosed)] (new_Consumer sample_args)))))
     = Returned [("user", "alice")].
Proof.
  intros later.
  assert (H : Forall (fun ec : Env * Call => forall d, snd ec <> call_set_appData d)
                later)
    by (repeat constructor; discriminate).
  destruct (appData_is_last_written sample_args [(quiet, call_transportClosed)]
              later quiet H) as [H1 H2].
  split; [exact H1|].
  exact (proj1 (H2 quiet [("user", "alice")])).
Defined.

(** ** Pausing and resuming *)

(** X3.  With listeners that return or throw but do not themselves
    call the Consumer's methods: on an open Consumer, [pause()]
    followed by [resume()] (when it was active) and [resume()] followed
    by [pause()] (when it was paused) bring every field of the Consumer
    and of its track back to what it was, also when a handler throws
    and the call throws with it. *)
Theorem pause_resume_round_trip :
  forall (a : Consumer.Args) (calls : list (Env * Call)) (env1 env2 : Env),
    let w := run calls (new_Consumer a) in
    _closed (self w) = false ->
    self (run (if _paused (self w)
               then [(env1, call_resume); (env2, call_pause)]
               else [(env1, call_pause); (env2, call_resume)]) w) = self w.
Proof.
  intros a calls env1 env2 w Hopen.
  pose proof (in_sync_always a calls) as Hsync. fold w in Hsync.
  unfold in_sync in Hsync.
  destruct (_paused (self w)) eqn:Hp; rewrite !run_cons; cbn [run fold_left];
    rewrite !after_self; cbn [transition]; rewrite Hopen, Hp; cbn [orb negb];
    unfold switched; cbn; cbn in Hsync;
    destruct (self w) as [? ? ? ? ? t ? ? ?]; cbn in *; subst;
    destruct t; cbn in *; subst; reflexivity.
Qed.

Lemma pause_resume_round_trip_witness :
  let w := run [(quiet, call_getStats)] (new_Consumer sample_args) in
  self (run [(failing_owner, call_pause); (quiet, call_resume)] w) = self w.
Proof.
  intros w.
  exact (pause_resume_round_trip sample_args [(quiet, call_getStats)]
           failing_owner quiet eq_refl).
Defined.

(** ** Counting signals *)

Ltac case_outcomes :=
  repeat match goal with
    | |- context [match ?o with Some _ => _ | None => _ end] => destruct o eqn:?
    | |- context [if ?b then _ else _] => destruct b eqn:?
    end.

Ltac effects_cases c s :=
  let Hc := fresh "Hc" in
  let Hp := fresh "Hp" in
  destruct c; cbn [effects transition];
  destruct (_closed s) eqn:Hc; destruct (_paused s) eqn:Hp; cbn [orb negb];
  unfold destroy_effects, owner_then_observer, pause_already, resume_already,
    trackended_effects;
  repeat (progress (case_outcomes; cbn));
  rewrite ?Hc, ?Hp in *; cbn in *.

Lemma signals_add_up_after (a : Consumer.Args) (ec : Env * Call) (w : World) :
  signals_add_up a w -> signals_add_up a (after ec w).
Proof.
  destruct ec as [env c]. unfold signals_add_up.
  rewrite after_self, after_trace, !count_app.
  intros (H1 & H2 & H3 & H4 & H5 & H6).
  effects_cases c (self w); repeat split; lia.
Qed.

Lemma signals_add_up_always (a : Consumer.Args) (calls : list (Env * Call)) :
  signals_add_up a (run calls (new_Consumer a)).
Proof.
  apply run_invariant; [apply signals_add_up_after|].
  unfold new_Consumer, signals_add_up. rewrite constructor_run. cbn.
  destruct (enabled (Consumer.arg_track a)); cbn; repeat split.
Qed.

Lemma run_trace_extends (calls : list (Env * Call)) :
  forall w, exists l, trace (run calls w) = trace w ++ l.
Proof.
  induction calls as [|[env c] rest IH]; intros w.
  - exists []. cbn. now rewrite app_nil_r.
  - rewrite run_cons. destruct (IH (after (env, c) w)) as [l Hl].
    rewrite Hl, after_trace, <- app_assoc. eauto.
Qed.

Lemma heard_le_emits (ev : Event) (t : list Effect) :
  count (emits_heard ev) t <= count (emits ev) t.
Proof.
  unfold count. induction t as [|x t IH]; cbn; [lia|].
  destruct x as [| | | | |how ev' v [e|]|]; cbn; try lia;
    destruct (same_name ev ev'); cbn; lia.
Qed.

Lemma closed_run (calls : list (Env * Call)) (w : World) :
  _closed (self w) = true -> _closed (self (run calls w)) = true.
Proof. apply (run_invariant (fun w => _closed (self w) = true) closed_after). Qed.






(** X5.  When the owner's ['@close'] handler throws, [close()] throws
    before it reaches the observer; the Consumer is closed all the
    same, so no later call gets past the guard, and the observer
    never receives ['close'], whatever is called afterwards. *)
Theorem failed_close_signal_silences_observer :
  forall (a : Consumer.Args) (before later : list (Env * Call))
         (env : Env) (e : Error),
    let w0 := run before (new_Consumer a) in
    _closed (self w0) = false ->
    (forall v, listeners env (on_this at_close) v = Some e) ->
    let w := run later (after (env, call_close) w0) in
    snd (perform call_close env w0) = Thrown e
    /\ _closed (self w) = true
    /\ count (emits (on_observer obs_close)) (trace w) = 0.
Proof.
  intros a before later env e w0 Hopen Hthrows w.
  assert (Hclosed : _closed (self w) = true).
  { apply closed_run. rewrite after_self. cbn [transition]. now rewrite Hopen. }
  split; [|split; [exact Hclosed|]].
  { rewrite perform_result. cbn [result]. now rewrite Hopen, Hthrows. }
  destruct (signals_add_up_always a before) as (A1 & _). fold w0 in A1.
  rewrite Hopen in A1. cbn [b2n] in A1.
  assert (Hw : w = run (before ++ (env, call_close) :: later) (new_Consumer a))
    by (subst w w0; now rewrite run_app).
  destruct (signals_add_up_always a (before ++ (env, call_close) :: later))
    as (B1 & B2 & _).
  rewrite <- Hw in B1, B2. rewrite Hclosed in B1. cbn [b2n] in B1.
  destruct (run_trace_extends later (after (env, call_close) w0)) as [l Hl].
  fold w in Hl. rewrite after_trace in Hl. cbn [effects] in Hl.
  rewrite Hopen in Hl. unfold owner_then_observer in Hl. rewrite Hthrows in Hl.
  rewrite Hl, !count_app in B1, B2.
  pose proof (heard_le_emits (on_this at_close) (trace w0)).
  pose proof (heard_le_emits (on_this at_close) l).
  assert (E1 : count (emits (on_this at_close))
                 (Log debug "close()" :: destroy_effects env ++
                  [Emitted by_emit (on_this at_close)
                     (view_of (terminated env (self w0))) (Some e)]) = 1)
    by (unfold destroy_effects; now destruct (removeEventListener_throws env)).
  assert (E2 : count (emits_heard (on_this at_close))
                 (Log debug "close()" :: destroy_effects env ++
                  [Emitted by_emit (on_this at_close)
                     (view_of (terminated env (self w0))) (Some e)]) = 0)
    by (unfold destroy_effects; now destruct (removeEventListener_throws env)).
  assert (E3 : count (emits (on_this transportclose))
                 (Log debug "close()" :: destroy_effects env ++
                  [Emitted by_emit (on_this at_close)
                     (view_of (terminated env (self w0))) (Some e)]) = 0)
    by (unfold destroy_effects; now destruct (removeEventListener_throws env)).
  rewrite Hl. repeat rewrite count_app in *. lia.
Qed.

Lemma failed_close_signal_silences_observer_witness :
  let w0 := run [(quiet, call_pause)] (new_Consumer sample_args) in
  let w := run [(quiet, call_close); (quiet, call_transportClosed)]
               (after (failing_owner, call_close) w0) in
  snd (perform call_close failing_owner w0) = Thrown (ForeignError 1)
  /\ _closed (self w) = true
  /\ count (emits (on_observer obs_close)) (trace w) = 0.
Proof.
  intros w0 w.
  apply (failed_close_signal_silences_observer sample_args
           [(quiet, call_pause)]
           [(quiet, call_close); (quiet, call_transportClosed)]
           failing_owner (ForeignError 1)).
  - reflexivity.
  - intros v. reflexivity.
Defined.

(** X6.  ['@pause'] and ['@resume'] go out on real transitions only and
    in strict alternation: counted from the state the constructor
    derived, the pauses signalled so far exceed the resumes by exactly
    one when the Consumer is paused and by none when it is not.  The
    track's [enabled] flag is written once per such signal and at no
    other time, and the observer's ['pause'] and ['resume'] go out
    exactly as often as the owner's handler of the matching signal
    returned. *)
Theorem pause_resume_signals_add_up :
  forall (a : Consumer.Args) (calls : list (Env * Call)),
    let w := run calls (new_Consumer a) in
    let n := fun p => count p (trace w) in
    (if enabled (Consumer.arg_track a) then 0 else 1) + n (emits (on_this at_pause))
      = (if _paused (self w) then 1 else 0) + n (emits (on_this at_resume))
    /\ n is_set_enabled
       = n (emits (on_this at_pause)) + n (emits (on_this at_resume))
    /\ n (emits (on_observer obs_pause)) = n (emits_heard (on_this at_pause))
    /\ n (emits (on_observer obs_resume)) = n (emits_heard (on_this at_resume)).
Proof.
  intros a calls w n.
  destruct (signals_add_up_always a calls) as (_ & _ & H3 & H4 & H5 & H6).
  fold w in H3, H4, H5, H6. subst n. cbn beta.
  repeat split; auto.
  unfold b2n in H3. now destruct (enabled (Consumer.arg_track a)).
Qed.

(** ** Statistics requests *)

Lemma requested_app (t u : list Effect) :
  requested (t ++ u) = requested t ++ requested u.
Proof.
  induction t as [|x t IH]; [reflexivity|].
  destruct x as [| | | | |how [[]|] v o|]; cbn; now rewrite ?IH.
Qed.

Lemma requested_effects (env : Env) (c : Call) (s : Consumer) (p : nat) :
  requested (effects env c s p) =
  match c with
  | call_getStats => if _closed s then [] else [(resolve_of p, reject_of p)]
  | _ => []
  end.
Proof.
  destruct c; cbn [effects];
    destruct (_closed s); destruct (_paused s); cbn [orb negb];
    unfold destroy_effects, owner_then_observer, pause_already, resume_already,
      trackended_effects;
    repeat (progress (case_outcomes; cbn)); reflexivity.
Qed.

Lemma requested_always (a : Consumer.Args) (calls : list (Env * Call)) :
  requested (trace (run calls (new_Consumer a))) =
  map (fun p => (resolve_of p, reject_of p))
      (seq 0 (promises (run calls (new_Consumer a)))).
Proof.
  apply (run_invariant
           (fun w => requested (trace w) =
                     map (fun p => (resolve_of p, reject_of p))
                         (seq 0 (promises w)))).
  - intros [env c] w H. rewrite after_world. cbn [trace promises].
    rewrite requested_app, requested_effects, H.
    destruct c; rewrite ?app_nil_r; try reflexivity.
    destruct (_closed (self w)); [apply app_nil_r|].
    now rewrite seq_S, map_app.
  - unfold new_Consumer. rewrite constructor_run. reflexivity.
Qed.

Lemma callbacks_NoDup (l : list nat) :
  NoDup l -> NoDup (map (fun p => (resolve_of p, reject_of p)) l).
Proof.
  induction 1 as [|x l Hx _ IH]; cbn; constructor; [|exact IH].
  intros Hin. apply in_map_iff in Hin. destruct Hin as [y [E Hy]].
  injection E as E _. now subst y.
Qed.

(** X7.  Every ['@getstats'] a Consumer emits carries the [resolve]
    and the [reject] of one and the same promise, a promise created for
    that call and for no other: the callback pairs emitted over a life
    are those of the promises 0, 1, 2, ... in order, so no two requests
    share a callback.  On an open Consumer the promise [getStats()]
    returns is the one whose callbacks it has just emitted. *)
Theorem getStats_requests_are_fresh :
  forall (a : Consumer.Args) (calls : list (Env * Call)),
    let w := run calls (new_Consumer a) in
    requested (trace w) =
      map (fun p => (resolve_of p, reject_of p)) (seq 0 (promises w))
    /\ NoDup (requested (trace w))
    /\ forall env : Env,
         _closed (self w) = false ->
         snd (perform call_getStats env w) = Returned (Some (pending (promises w)))
         /\ requested (trace (after (env, call_getStats) w)) =
            requested (trace w) ++ [(resolve_of (promises w), reject_of (promises w))]
         /\ ~ In (resolve_of (promises w), reject_of (promises w))
                 (requested (trace w)).
Proof.
  intros a calls w.
  pose proof (requested_always a calls) as H. fold w in H.
  split; [exact H|]. split.
  - rewrite H. apply callbacks_NoDup, seq_NoDup.
  - intros env Hopen. repeat split.
    + rewrite perform_result. cbn [result]. now rewrite Hopen.
    + rewrite after_trace, requested_app, requested_effects. now rewrite Hopen.
    + rewrite H. intros Hin. apply in_map_iff in Hin.
      destruct Hin as [p [E Hp]]. injection E as E _. subst p.
      apply in_seq in Hp. lia.
Qed.

Lemma getStats_requests_are_fresh_witness :
  let w := run [(quiet, call_getStats); (failing_owner, call_getStats)]
               (new_Consumer sample_args) in
  snd (perform call_getStats quiet w) = Returned (Some (pending 2))
  /\ requested (trace (after (quiet, call_getStats) w)) =
     requested (trace w) ++ [(resolve_of 2, reject_of 2)]
  /\ ~ In (resolve_of 2, reject_of 2) (requested (trace w)).
Proof.
  intros w.
  destruct (getStats_requests_are_fresh sample_args
              [(quiet, call_getStats); (failing_owner, call_getStats)])
    as [_ [_ H]].
  exact (H quiet eq_refl).
Defined.

(** ** After the end *)

Lemma closed_detached_step (env : Env) (c : Call) (s : Consumer) (p : nat) :
  _closed s = true -> ended_listener (_track s) = false ->
  transition env c s =
    match c with call_set_appData d => set_appData d s | _ => s end
  /\ forallb is_log (effects env c s p) = true.
Proof.
  intros Hc Hl. destruct c; cbn [transition effects];
    rewrite ?Hc, ?Hl; cbn [orb]; unfold pause_already, resume_already;
    rewrite ?Hc; split; reflexivity.
Qed.

(** X8.  A Consumer that is closed and whose handler is off the track
    is inert: whatever is called on it from then on, and whatever the
    track does, no field changes except [appData] through its setter
    ([paused] keeps the value it had), no promise is created, and
    nothing is appended to the trace but log lines: no emission on
    either emitter and no call on the track. *)
Theorem closed_consumer_is_inert :
  forall (w : World) (calls : list (Env * Call)),
    _closed (self w) = true ->
    ended_listener (_track (self w)) = false ->
    let w' := run calls w in
    set_appData (_appData (self w)) (self w') = self w
    /\ promises w' = promises w
    /\ exists logs, trace w' = trace w ++ logs /\ forallb is_log logs = true.
Proof.
  intros w calls Hc Hl w'. subst w'.
  apply (run_invariant
           (fun w' => set_appData (_appData (self w)) (self w') = self w
                      /\ promises w' = promises w
                      /\ exists logs, trace w' = trace w ++ logs
                                      /\ forallb is_log logs = true)).
  - intros [env c] w1 (Hs & Hp & logs & Ht & Hlogs).
    assert (Hc1 : _closed (self w1) = true).
    { rewrite <- Hc, <- Hs. now destruct (self w1). }
    assert (Hl1 : ended_listener (_track (self w1)) = false).
    { rewrite <- Hl, <- Hs. now destruct (self w1). }
    destruct (closed_detached_step env c (self w1) (promises w1) Hc1 Hl1)
      as [Htr Heff].
    rewrite after_world. cbn [self trace promises]. rewrite Htr.
    split; [|split].
    + destruct c; exact Hs.
    + destruct c; auto; now rewrite Hc1.
    + exists (logs ++ effects env c (self w1) (promises w1)).
      rewrite Ht, app_assoc, forallb_app, Hlogs, Heff. now split.
  - split; [now destruct (self w)|split; [reflexivity|]].
    exists []. now rewrite app_nil_r.
Qed.

Lemma closed_consumer_is_inert_witness :
  let w := after (quiet, call_close) (new_Consumer sample_args) in
  let w' := run [(failing_owner, call_resume); (quiet, ended_fired);
                 (quiet, call_getStats); (quiet, call_set_appData [("k", "v")]);
                 (failing_owner, call_transportClosed)] w in
  set_appData (_appData (self w)) (self w') = self w
  /\ promises w' = promises w
  /\ exists logs, trace w' = trace w ++ logs /\ forallb is_log logs = true.
Proof.
  intros w w'.
  exact (closed_consumer_is_inert w _ eq_refl eq_refl).
Defined.

(** ** The track while the Consumer is open *)

Lemma open_track_after (a : Consumer.Args) (ec : Env * Call) (w : World) :
  (_closed (self w) = false ->
   _track (self w) =
   with_ended_listener true
     (with_enabled (negb (_paused (self w))) (Consumer.arg_track a))) ->
  _closed (self (after ec w)) = false ->
  _track (self (after ec w)) =
  with_ended_listener true
    (with_enabled (negb (_paused (self (after ec w)))) (Consumer.arg_track a)).
Proof.
  destruct ec as [env c]. rewrite after_self. intros H.
  destruct c; cbn [transition];
    destruct (_closed (self w)) eqn:Hc; cbn [orb]; try (cbn; discriminate);
    destruct (_paused (self w)) eqn:Hp; cbn [orb negb];
    cbn; rewrite ?Hc, ?Hp; intros; try discriminate;
    rewrite ?H by reflexivity; reflexivity.
Qed.

Lemma count_attach_effects (env : Env) (c : Call) (s : Consumer) (p : nat) :
  count is_attach (effects env c s p) = 0.
Proof.
  destruct c; cbn [effects];
    destruct (_closed s); destruct (_paused s); cbn [orb negb];
    unfold destroy_effects, owner_then_observer, pause_already, resume_already,
      trackended_effects;
    repeat (progress (case_outcomes; cbn)); reflexivity.
Qed.

Lemma attached_once (a : Consumer.Args) (calls : list (Env * Call)) :
  count is_attach (trace (run calls (new_Consumer a))) = 1.
Proof.
  apply (run_invariant (fun w => count is_attach (trace w) = 1)).
  - intros [env c] w H.
    rewrite after_trace, count_app, count_attach_effects, H. reflexivity.
  - unfold new_Consumer. rewrite constructor_run. reflexivity.
Qed.

Lemma open_track_always (a : Consumer.Args) (calls : list (Env * Call)) :
  _closed (self (run calls (new_Consumer a))) = false ->
  _track (self (run calls (new_Consumer a))) =
  with_ended_listener true
    (with_enabled (negb (_paused (self (run calls (new_Consumer a)))))
       (Consumer.arg_track a)).
Proof.
  apply (run_invariant
           (fun w => _closed (self w) = false ->
                     _track (self w) =
                     with_ended_listener true
                       (with_enabled (negb (_paused (self w)))
                          (Consumer.arg_track a)))).
  - intros ec w. apply open_track_after.
  - intros _. unfold new_Consumer. rewrite constructor_run. cbn.
    now rewrite negb_involutive.
Qed.

(** X9.  As long as a Consumer is open it holds on to its track: its
    [onTrackEnded] is attached (it was registered once, by the
    constructor, and never again), the track's [enabled] flag is the
    negation of [_paused], its [kind] is the supplied one, and the
    Consumer has called neither [stop()] nor [removeEventListener] on
    it. *)
Theorem open_consumer_keeps_its_track :
  forall (a : Consumer.Args) (calls : list (Env * Call)),
    let w := run calls (new_Consumer a) in
    _closed (self w) = false ->
    ended_listener (_track (self w)) = true
    /\ count is_attach (trace w) = 1
    /\ enabled (_track (self w)) = negb (_paused (self w))
    /\ kind (_track (self w)) = kind (Consumer.arg_track a)
    /\ count is_stop (trace w) = 0
    /\ count is_detach (trace w) = 0.
Proof.
  intros a calls w Hopen.
  destruct (destroyed_once_always a calls) as [Hd Hs]. fold w in Hd, Hs.
  rewrite Hopen in Hd.
  pose proof (open_track_always a calls Hopen) as Ht. fold w in Ht.
  rewrite Ht. cbn. repeat split; try lia. apply attached_once.
Qed.

Lemma open_consumer_keeps_its_track_witness :
  let w := run [(failing_owner, call_pause); (quiet, call_getStats);
                (quiet, ended_fired)]
               (new_Consumer sample_args) in
  ended_listener (_track (self w)) = true
  /\ count is_attach (trace w) = 1
  /\ enabled (_track (self w)) = negb (_paused (self w))
  /\ kind (_track (self w)) = video
  /\ count is_stop (trace w) = 0
  /\ count is_detach (trace w) = 0.
Proof.
  intros w.
  exact (open_consumer_keeps_its_track sample_args
           [(failing_owner, call_pause); (quiet, call_getStats);
            (quiet, ended_fired)] eq_refl).
Defined.

(** ** What can throw *)

(** X10.  The only calls that can throw are [close()], [pause()] and
    [resume()], and only on an open Consumer, and what they throw is
    what the owner's handler of ['@close'], ['@pause'] or ['@resume']
    threw: that delivery, made with [emit], is the last thing in the
    trace.  [transportClosed()], [getStats()], the [appData] setter and
    the track's ['ended'] never throw, whatever the listeners and the
    track do. *)
Theorem only_owner_signals_throw :
  forall (env : Env) (c : Call) (w : World) (e : Error),
    snd (perform c env w) = Thrown e ->
    _closed (self w) = false
    /\ exists signal v,
         ((c = call_close /\ signal = at_close)
          \/ (c = call_pause /\ signal = at_pause)
          \/ (c = call_resume /\ signal = at_resume))
         /\ listeners env (on_this signal) v = Some e
         /\ exists t, trace (after (env, c) w) =
                      t ++ [Emitted by_emit (on_this signal) v (Some e)].
Proof.
  intros env c w e. rewrite perform_result, after_trace.
  destruct c; cbn [result effects];
    destruct (_closed (self w)) eqn:Hc; try discriminate;
    destruct (_paused (self w)) eqn:Hp; cbn [orb negb]; try discriminate.
  1, 2: destruct (listeners env (on_this at_close)
                    (view_of (terminated env (self w)))) eqn:Hl;
        try discriminate; intros E; injection E as ->;
        (split; [reflexivity|]);
        exists at_close, (view_of (terminated env (self w)));
        (split; [auto|split; [exact Hl|]]);
        exists (trace w ++ Log debug "close()" :: destroy_effects env);
        unfold owner_then_observer; rewrite Hl, <- app_assoc; reflexivity.
  - destruct (listeners env (on_this at_pause)
                (view_of (switched true (self w)))) eqn:Hl;
      try discriminate; intros E; injection E as ->.
    split; [reflexivity|].
    exists at_pause, (view_of (switched true (self w))).
    split; [auto|split; [exact Hl|]].
    exists (trace w ++ [Log debug "pause()"; Track_set_enabled false]).
    unfold owner_then_observer. rewrite Hl, <- app_assoc. reflexivity.
  - destruct (listeners env (on_this at_resume)
                (view_of (switched false (self w)))) eqn:Hl;
      try discriminate; intros E; injection E as ->.
    split; [reflexivity|].
    exists at_resume, (view_of (switched false (self w))).
    split; [auto|split; [exact Hl|]].
    exists (trace w ++ [Log debug "resume()"; Track_set_enabled true]).
    unfold owner_then_observer. rewrite Hl, <- app_assoc. reflexivity.
Qed.

Lemma only_owner_signals_throw_witness :
  let w := new_Consumer sample_args in
  _closed (self w) = false
  /\ exists signal v,
       ((call_pause = call_close /\ signal = at_close)
        \/ (call_pause = call_pause /\ signal = at_pause)
        \/ (call_pause = call_resume /\ signal = at_resume))
       /\ listeners failing_owner (on_this signal) v = Some (ForeignError 1)
       /\ exists t, trace (after (failing_owner, call_pause) w) =
                    t ++ [Emitted by_emit (on_this signal) v (Some (ForeignError 1))].
Proof.
  intros w.
  exact (only_owner_signals_throw failing_owner call_pause w (ForeignError 1)
           eq_refl).
Defined.

(** ** Isolated listeners *)

Lemma destroyed_same (env1 env2 : Env) (t : MediaStreamTrack) :
  same_but_isolated env1 env2 -> destroyed env1 t = destroyed env2 t.
Proof. intros (Hr & Hs & _). unfold destroyed. now rewrite Hr, Hs. Qed.

Lemma transition_same (env1 env2 : Env) (c : Call) (s : Consumer) :
  same_but_isolated env1 env2 -> transition env1 c s = transition env2 c s.
Proof.
  intros H. destruct c; cbn [transition]; unfold terminated;
    now rewrite ?(destroyed_same _ _ _ H).
Qed.

Lemma result_same (env1 env2 : Env) (c : Call) (s : Consumer) (p : nat) :
  same_but_isolated env1 env2 -> result env1 c s p = result env2 c s p.
Proof.
  intros H. pose proof H as (_ & _ & Hl).
  destruct c; cbn [result]; unfold terminated;
    rewrite ?(destroyed_same _ _ _ H), ?Hl by reflexivity; reflexivity.
Qed.

(** X11.  Listeners reached through [safeEmit] cannot influence the
    Consumer: let two runs make the same calls and meet the same track
    and the same owner handlers for ['@close'], ['@pause'] and
    ['@resume'], and let the listeners of every other event (all
    observer events, ['transportclose'], ['trackended'], ['@getstats'])
    behave in any two ways, throwing or not.  Then every call returns
    or throws the same in both runs, and after every call the Consumer
    has the same fields, the same track and the same promises. *)
Theorem isolated_listeners_do_not_matter :
  forall (calls1 calls2 : list (Env * Call)) (w : World),
    Forall2 (fun ec1 ec2 => snd ec1 = snd ec2
                            /\ same_but_isolated (fst ec1) (fst ec2))
            calls1 calls2 ->
    Forall2 (fun w1 w2 => self w1 = self w2 /\ promises w1 = promises w2)
            (worlds calls1 w) (worlds calls2 w)
    /\ forall (env1 env2 : Env) (c : Call),
         same_but_isolated env1 env2 ->
         snd (perform c env1 w) = snd (perform c env2 w).
Proof.
  intros calls1 calls2 w H. split.
  - assert (G : forall w1 w2,
               self w1 = self w2 -> promises w1 = promises w2 ->
               Forall2 (fun w1 w2 => self w1 = self w2 /\ promises w1 = promises w2)
                       (worlds calls1 w1) (worlds calls2 w2)).
    { induction H as [|[env1 c1] [env2 c2] l1 l2 [Hc Hs] _ IH];
        intros w1 w2 Es Ep; cbn [worlds]; [constructor|].
      cbn [fst snd] in Hc, Hs. subst c2.
      assert (E : self (after (env1, c1) w1) = self (after (env2, c1) w2)
                  /\ promises (after (env1, c1) w1) = promises (after (env2, c1) w2)).
      { rewrite !after_world. cbn [self promises].
        now rewrite Es, Ep, (transition_same _ _ c1 (self w2) Hs). }
      constructor; [exact E | now apply IH]. }
    now apply G.
  - intros env1 env2 c Hs. rewrite !perform_result. now apply result_same.
Qed.

Lemma isolated_listeners_do_not_matter_witness :
  let noisy := mkEnv (fun ev _ => match delivery_in_source ev with
                                  | by_emit => None
                                  | by_safeEmit => Some (ForeignError 9)
                                  end) None None in
  let calls := [call_pause; call_getStats; call_transportClosed] in
  Forall2 (fun w1 w2 => self w1 = self w2 /\ promises w1 = promises w2)
          (worlds (map (pair quiet) calls) (new_Consumer sample_args))
          (worlds (map (pair noisy) calls) (new_Consumer sample_args))
  /\ snd (perform call_transportClosed quiet (new_Consumer sample_args)) =
     snd (perform call_transportClosed noisy (new_Consumer sample_args)).
Proof.
  intros noisy calls.
  assert (S : same_but_isolated quiet noisy).
  { repeat split. intros ev v H. cbn. now rewrite H. }
  destruct (isolated_listeners_do_not_matter
              (map (pair quiet) calls) (map (pair noisy) calls)
              (new_Consumer sample_args)) as [H1 H2].
  - subst calls. cbn [map].
    repeat (apply Forall2_cons; [split; [reflexivity | exact S]|]).
    apply Forall2_nil.
  - split; [exact H1 | exact (H2 quiet noisy call_transportClosed S)].
Defined.

(** ** The end of the track while the Consumer is open *)

Lemma ended_fired_attached (env : Env) (w : World) :
  ended_listener (_track (self w)) = true ->
  after (env, ended_fired) w =
  mkWorld (self w) (trace w ++ trackended_effects env (self w)) (promises w).
Proof. intros H. rewrite after_world. cbn [transition effects]. now rewrite H. Qed.

(** X12.  With listeners that return or throw but do not themselves
    call the Consumer's methods: while the Consumer is open, an
    ['ended'] fired by its track reaches [onTrackEnded], which
    republishes it.  The call returns normally and appends its log
    line, then one [trackended] on the public emitter and one on the
    observer, both through [safeEmit]; and the Consumer is neither
    closed nor paused by it: [_closed] and [_paused] are as before. *)
Theorem ended_while_open_is_republished :
  forall (a : Consumer.Args) (calls : list (Env * Call)) (env : Env),
    let w := run calls (new_Consumer a) in
    _closed (self w) = false ->
    let w' := after (env, ended_fired) w in
    snd (perform ended_fired env w) = Returned None
    /\ trace w' =
       trace w ++
       [Log debug track_ended_message;
        Emitted by_safeEmit (on_this trackended) (view_of (self w))
          (listeners env (on_this trackended) (view_of (self w)));
        Emitted by_safeEmit (on_observer obs_trackended) (view_of (self w))
          (listeners env (on_observer obs_trackended) (view_of (self w)))]
    /\ _closed (self w') = false
    /\ _paused (self w') = _paused (self w).
Proof.
  intros a calls env w Hopen w'.
  pose proof (attached_while_open a calls Hopen) as Hatt. fold w in Hatt.
  subst w'. rewrite perform_result, ended_fired_attached by assumption.
  cbn [result self trace]. repeat split; auto.
Qed.

Lemma ended_while_open_is_republished_witness :
  let w := run [(quiet, call_pause)] (new_Consumer sample_args) in
  let w' := after (failing_owner, ended_fired) w in
  snd (perform ended_fired failing_owner w) = Returned None
  /\ trace w' =
     trace w ++
     [Log debug track_ended_message;
      Emitted by_safeEmit (on_this trackended) (view_of (self w))
        (listeners failing_owner (on_this trackended) (view_of (self w)));
      Emitted by_safeEmit (on_observer obs_trackended) (view_of (self w))
        (listeners failing_owner (on_observer obs_trackended) (view_of (self w)))]
  /\ _closed (self w') = false
  /\ _paused (self w') = _paused (self w).
Proof.
  intros w w'.
  exact (ended_while_open_is_republished sample_args [(quiet, call_pause)]
           failing_owner eq_refl).
Defined.

(** ** What listeners find *)

Lemma effects_saw_expected (env : Env) (c : Call) (s : Consumer) (p : nat) :
  enabled (_track s) = negb (_paused s) ->
  Forall saw_expected (effects env c s p).
Proof.
  intros H. destruct c; cbn [effects];
    destruct (_closed s) eqn:Hc; destruct (_paused s) eqn:Hp; cbn [orb negb];
    unfold destroy_effects, owner_then_observer, pause_already, resume_already,
      trackended_effects;
    repeat (progress (case_outcomes; cbn));
    repeat constructor; cbn; rewrite ?enabled_destroyed, ?Hc, ?Hp; auto.
Qed.

(** X13.  Whenever a listener runs, for any event, on either emitter
    and however it was delivered, the track of the Consumer it can
    inspect agrees with the Consumer: its [enabled] flag is the
    negation of [paused].  And the listeners of ['@close'],
    ['transportclose'] and the observer's ['close'] find [closed]
    already true. *)
Theorem listeners_find_the_new_state :
  forall (a : Consumer.Args) (calls : list (Env * Call)),
    Forall saw_expected (trace (run calls (new_Consumer a))).
Proof.
  intros a calls.
  assert (G : in_sync (run calls (new_Consumer a))
              /\ Forall saw_expected (trace (run calls (new_Consumer a)))).
  { apply (run_invariant (fun w => in_sync w /\ Forall saw_expected (trace w))).
    - intros [env c] w [Hs Ht]. split; [now apply in_sync_after|].
      rewrite after_trace. apply Forall_app. split; [exact Ht|].
      now apply effects_saw_expected.
    - split; [apply in_sync_new|].
      unfold new_Consumer. rewrite constructor_run. repeat constructor. }
  apply G.
Qed.

(** ** Termination is not retried *)

Lemma closed_track_kept (later : list (Env * Call)) :
  forall w, _closed (self w) = true ->
    _track (self (run later w)) = _track (self w)
    /\ count is_stop (trace (run later w)) = count is_stop (trace w)
    /\ count is_detach (trace (run later w)) = count is_detach (trace w).
Proof.
  induction later as [|[env c] rest IH]; intros w Hc; [now cbn|].
  rewrite run_cons.
  destruct (IH (after (env, c) w) (closed_after (env, c) w Hc)) as (E1 & E2 & E3).
  rewrite E1, E2, E3, after_self, after_trace, !count_app,
    count_stop_effects, count_detach_effects.
  destruct c; cbn [transition]; rewrite ?Hc; cbn [orb]; repeat split; lia.
Qed.

(** X14.  What the first terminating call attempts on the track is
    never attempted again.  Whatever is called after it,
    [removeEventListener] has been called exactly once; and [stop()]
    exactly once if that [removeEventListener] returned, never if it
    threw: a [stop()] that was skipped is not made up for, and a
    [stop()] that threw is not repeated. *)
Theorem termination_is_not_retried :
  forall (a : Consumer.Args) (before later : list (Env * Call))
         (env : Env) (c : Call),
    let w0 := run before (new_Consumer a) in
    _closed (self w0) = false ->
    c = call_close \/ c = call_transportClosed ->
    let w := run later (after (env, c) w0) in
    _closed (self w) = true
    /\ count is_detach (trace w) = 1
    /\ count is_stop (trace w) =
       match removeEventListener_throws env with Some _ => 0 | None => 1 end.
Proof.
  intros a before later env c w0 Hopen Hc w.
  destruct (destroyed_once_always a before) as [Hd Hs]. fold w0 in Hd, Hs.
  rewrite Hopen in Hd.
  assert (Hclosed : _closed (self (after (env, c) w0)) = true).
  { rewrite after_self, closed_transition.
    destruct Hc; subst c; now rewrite orb_true_r. }
  destruct (closed_track_kept later _ Hclosed) as (_ & E2 & E3).
  fold w in E2, E3.
  split; [now apply closed_run|].
  rewrite E2, E3, after_trace, !count_app,
    count_stop_effects, count_detach_effects.
  destruct Hc; subst c; rewrite Hopen;
    destruct (removeEventListener_throws env); split; lia.
Qed.

Lemma termination_is_not_retried_witness :
  let w0 := run [] (new_Consumer sample_args) in
  let w := run [(quiet, call_close); (quiet, call_transportClosed)]
               (after (broken_track, call_close) w0) in
  _closed (self w) = true
  /\ count is_detach (trace w) = 1
  /\ count is_stop (trace w) = 0.
Proof.
  intros w0 w.
  exact (termination_is_not_retried sample_args []
           [(quiet, call_close); (quiet, call_transportClosed)]
           broken_track call_close eq_refl (or_introl eq_refl)).
Defined.

(** X16.  A terminating call whose [removeEventListener] returned has
    taken the Consumer off its track for good: whatever is called
    afterwards, the handler stays detached, and an ['ended'] that the
    track fires later reaches no handler of the Consumer; the
    notification returns normally and nothing is logged or emitted on
    either emitter. *)
Theorem ended_after_detach_is_not_heard :
  forall (a : Consumer.Args) (before later : list (Env * Call))
         (env_end env : Env) (c : Call),
    let w0 := run before (new_Consumer a) in
    _closed (self w0) = false ->
    c = call_close \/ c = call_transportClosed ->
    removeEventListener_throws env_end = None ->
    let w := run later (after (env_end, c) w0) in
    ended_listener (_track (self w)) = false
    /\ snd (perform ended_fired env w) = Returned None
    /\ trace (after (env, ended_fired) w) = trace w.
Proof.
  intros a before later env_end env c w0 Hopen Hc Hr w.
  assert (Hclosed : _closed (self (after (env_end, c) w0)) = true).
  { rewrite after_self, closed_transition.
    destruct Hc; subst c; now rewrite orb_true_r. }
  destruct (closed_track_kept later _ Hclosed) as (E1 & _ & _).
  fold w in E1.
  assert (Hdet : ended_listener (_track (self w)) = false).
  { rewrite E1, after_self.
    destruct Hc; subst c; cbn [transition]; rewrite Hopen; cbn;
      now apply destroyed_detached. }
  split; [exact Hdet|]. split; [now rewrite perform_result|].
  rewrite after_trace. cbn [effects]. rewrite Hdet. apply app_nil_r.
Qed.

Lemma ended_after_detach_is_not_heard_witness :
  let w0 := run [(quiet, call_pause)] (new_Consumer sample_args) in
  let w := run [(quiet, call_resume)] (after (quiet, call_close) w0) in
  ended_listener (_track (self w)) = false
  /\ snd (perform ended_fired failing_owner w) = Returned None
  /\ trace (after (failing_owner, ended_fired) w) = trace w.
Proof.
  intros w0 w.
  exact (ended_after_detach_is_not_heard sample_args [(quiet, call_pause)]
           [(quiet, call_resume)] quiet failing_owner call_close
           eq_refl (or_introl eq_refl) eq_refl).
Defined.

(** ** Calling twice *)

Lemma second_call_is_noop (env : Env) (c : Call) (s : Consumer) (p : nat) :
  c = call_pause \/ c = call_resume \/ c = call_close \/ c = call_transportClosed ->
  forall env1,
    transition env c (transition env1 c s) = transition env1 c s
    /\ emissions (effects env c (transition env1 c s) p) = []
    /\ count is_track_write (effects env c (transition env1 c s) p) = 0.
Proof.
  intros Hc env1.
  destruct Hc as [-> | [-> | [-> | ->]]]; cbn [transition effects];
    destruct (_closed s) eqn:Hcl; destruct (_paused s) eqn:Hp;
    cbn [orb negb]; rewrite ?Hcl, ?Hp; cbn; rewrite ?Hcl, ?Hp; cbn;
    repeat split; rewrite Hcl; reflexivity.
Qed.

(** X15.  With listeners that return or throw but do not themselves
    call the Consumer's methods: [pause()], [resume()], [close()] and
    [transportClosed()] are idempotent in every state.  Called a
    second time right after the first, each returns normally, leaves
    every field and the track as the first call left them, emits
    nothing on either emitter and makes no call on the track, even
    when the first call threw. *)
Theorem calling_twice_changes_nothing :
  forall (w : World) (env1 env2 : Env) (c : Call),
    c = call_pause \/ c = call_resume \/ c = call_close \/ c = call_transportClosed ->
    let w1 := after (env1, c) w in
    let w2 := after (env2, c) w1 in
    self w2 = self w1
    /\ emissions (trace w2) = emissions (trace w1)
    /\ count is_track_write (trace w2) = count is_track_write (trace w1)
    /\ snd (perform c env2 w1) = Returned None.
Proof.
  intros w env1 env2 c Hc w1 w2. subst w2.
  rewrite !after_self, after_trace, emissions_app, count_app, perform_result.
  subst w1. rewrite !after_self.
  destruct (second_call_is_noop env2 c (self w)
              (promises (after (env1, c) w)) Hc env1) as (E1 & E2 & E3).
  rewrite E1, E2, E3, app_nil_r, Nat.add_0_r.
  repeat split.
  destruct Hc as [-> | [-> | [-> | ->]]]; cbn [result transition];
    destruct (_closed (self w)) eqn:Hcl; destruct (_paused (self w)) eqn:Hp;
    cbn [orb negb]; rewrite ?Hcl, ?Hp; cbn; rewrite ?Hcl, ?Hp; reflexivity.
Qed.

Lemma calling_twice_changes_nothing_witness :
  let w1 := after (failing_owner, call_pause) (new_Consumer sample_args) in
  let w2 := after (failing_owner, call_pause) w1 in
  self w2 = self w1
  /\ emissions (trace w2) = emissions (trace w1)
  /\ count is_track_write (trace w2) = count is_track_write (trace w1)
  /\ snd (perform call_pause failing_owner w1) = Returned None.
Proof.
  intros w1 w2.
  exact (calling_twice_changes_nothing (new_Consumer sample_args)
           failing_owner failing_owner call_pause (or_introl eq_refl)).
Defined.
